(** * The tunnel game: a shallow embedding of the simulation tick

    The program is a browser game.  One global object [gameState], the array
    [cameraPos], the array [obstacles] and the dictionary [keys] are mutated
    by free functions: [updateGame] once per animation frame, [startGame]
    from the input handlers, [restartGame] from the game-over screen.

    Conventions of the embedding.
    - JavaScript numbers are taken as exact rationals ([Q]): every constant
      of the source (0.002, 16.67, 0.06, 1.8, ...) is a decimal and all
      operations used are field operations, comparisons, [Math.max],
      [Math.min] and [Math.floor].  [life] and [score] only ever hold
      integers and are kept in [Z].
    - [Math.random()] is an input of the frame: [random k] is the value of
      the k-th call made during that frame.
    - Calls into the page (DOM, audio, storage) do not feed back into the
      simulation; they are recorded, in call order, as a list of [Effect]s.
    - The module-level variables form the record [World]. *)

From Stdlib Require Import ZArith QArith Qround Rbase R_sqrt Qreals Lqa Lia.
From Stdlib Require Import DecimalString.
From stdpp Require Import base list gmap strings.

Open Scope Q_scope.

(** ** The JavaScript [Math] functions used by the game *)

Module Math.

Definition max (a b : Q) : Q := if Qlt_le_dec a b then b else a.
Definition min (a b : Q) : Q := if Qlt_le_dec b a then b else a.
Definition floor (a : Q) : Z := Qfloor a.

(** [Math.PI] is the double nearest to pi, itself a rational number. *)
Definition PI : Q := 884279719003555 # 281474976710656.

(** The only use of [Math.sqrt] is the guard [Math.sqrt(s) < t] with [s] a
    sum of squares.  Over the reals that guard is [0 < t] and [s < t * t],
    which is how it is decided here. *)
Definition sqrt_lt (s t : Q) : bool :=
  if Qlt_le_dec 0 t then (if Qlt_le_dec s (t * t) then true else false)
  else false.

End Math.

(** ** Data *)

Record GameState := mkGameState {
  life : Z;
  score : Z;
  speed : Q;
  playerY : Q;
  playerVelocity : Q;
  gameRunning : bool;
  showTitle : bool;
  time : Q
}.

Module Obstacle.
Record t := mk {
  x : Q; y : Q; z : Q;
  rotationX : Q; rotationY : Q; rotationZ : Q;
  rotationSpeedX : Q; rotationSpeedY : Q; rotationSpeedZ : Q
}.
End Obstacle.

(** [cameraPos] is always a three-element array; only indices 1 and 2 are
    ever assigned. *)
Record Vec3 := mkVec3 { c0 : Q; c1 : Q; c2 : Q }.

Record World := mkWorld {
  gameState : GameState;
  keys : gmap string bool;
  cameraPos : Vec3;
  obstacles : list Obstacle.t
}.

(** What the simulation asks of the page, in call order. *)
Inductive Effect :=
| showTitleScreen
| showDamageFlash
| playCollisionSound (type : string)
| playMelody (type : string)
| showGameOver (finalScore : Z)
| updateUI (shownLife shownScore : Z).

(** The phase of the state machine, read off the two flags in the order in
    which [updateGame] tests them. *)
Inductive Phase := TITLE | RUNNING | GAME_OVER.

Definition phase (w : World) : Phase :=
  if showTitle (gameState w) then TITLE
  else if gameRunning (gameState w) then RUNNING
  else GAME_OVER.

(** *** Field assignments *)

Definition set_gameState (g : GameState) (w : World) : World :=
  mkWorld g (keys w) (cameraPos w) (obstacles w).
Definition set_keys (k : gmap string bool) (w : World) : World :=
  mkWorld (gameState w) k (cameraPos w) (obstacles w).
Definition set_cameraPos (c : Vec3) (w : World) : World :=
  mkWorld (gameState w) (keys w) c (obstacles w).
Definition set_obstacles (l : list Obstacle.t) (w : World) : World :=
  mkWorld (gameState w) (keys w) (cameraPos w) l.

Definition set_life (v : Z) (g : GameState) : GameState :=
  mkGameState v (score g) (speed g) (playerY g) (playerVelocity g)
              (gameRunning g) (showTitle g) (time g).
Definition set_score (v : Z) (g : GameState) : GameState :=
  mkGameState (life g) v (speed g) (playerY g) (playerVelocity g)
              (gameRunning g) (showTitle g) (time g).
Definition set_speed (v : Q) (g : GameState) : GameState :=
  mkGameState (life g) (score g) v (playerY g) (playerVelocity g)
              (gameRunning g) (showTitle g) (time g).
Definition set_playerY (v : Q) (g : GameState) : GameState :=
  mkGameState (life g) (score g) (speed g) v (playerVelocity g)
              (gameRunning g) (showTitle g) (time g).
Definition set_playerVelocity (v : Q) (g : GameState) : GameState :=
  mkGameState (life g) (score g) (speed g) (playerY g) v
              (gameRunning g) (showTitle g) (time g).
Definition set_gameRunning (v : bool) (g : GameState) : GameState :=
  mkGameState (life g) (score g) (speed g) (playerY g) (playerVelocity g)
              v (showTitle g) (time g).
Definition set_showTitle (v : bool) (g : GameState) : GameState :=
  mkGameState (life g) (score g) (speed g) (playerY g) (playerVelocity g)
              (gameRunning g) v (time g).
Definition set_time (v : Q) (g : GameState) : GameState :=
  mkGameState (life g) (score g) (speed g) (playerY g) (playerVelocity g)
              (gameRunning g) (showTitle g) v.

Definition upd (f : GameState -> GameState) (w : World) : World :=
  set_gameState (f (gameState w)) w.

(** *** Statements with page effects *)

Definition Stmt := World -> World * list Effect.

Definition skip : Stmt := fun w => (w, []).
Definition assign (f : World -> World) : Stmt := fun w => (f w, []).
Definition call (e : World -> Effect) : Stmt := fun w => (w, [e w]).
Definition seq (s1 s2 : Stmt) : Stmt := fun w =>
  let r1 := s1 w in
  let r2 := s2 (fst r1) in
  (fst r2, snd r1 ++ snd r2).
Definition ifThenElse (c : World -> bool) (s1 s2 : Stmt) : Stmt := fun w =>
  if c w then s1 w else s2 w.

Declare Scope stmt_scope.
Delimit Scope stmt_scope with stmt.
Bind Scope stmt_scope with Stmt.
Notation "s1 ;; s2" := (seq s1 s2)
  (at level 100, s2 at level 200, right associativity) : stmt_scope.

(** A JavaScript property read of a dictionary used as a condition: an
    absent key reads [undefined], which is falsy. *)
Definition truthy (k : gmap string bool) (code : string) : bool :=
  default false (k !! code).

(** ** The game *)

Definition initialGameState : GameState :=
  {| life := 100; score := 0; speed := 0.02; playerY := 0;
     playerVelocity := 0; gameRunning := false; showTitle := true;
     time := 0 |}.

(** The module-level declarations: [gameState], [keys = {}],
    [cameraPos = [0, 0, 0]], [obstacles = []]. *)
Definition initialWorld : World :=
  {| gameState := initialGameState; keys := ∅;
     cameraPos := mkVec3 0 0 0; obstacles := [] |}.

Definition getDifficultyMultiplier (w : World) : Q :=
  let progressFactor := inject_Z (score (gameState w)) / 1000 in
  1 + progressFactor.

(** [keys['Space'] || keys['Touch'] || keys['MouseClick']] *)
Definition thrust (w : World) : bool :=
  truthy (keys w) "Space" || truthy (keys w) "Touch"
  || truthy (keys w) "MouseClick".

(** *** The blocks of [updateGame], in source order *)

Section Frame.

Variable deltaTime : Q.
Variable random : nat -> Q.

(** [// Player movement]: accelerate, clamp, integrate. *)
Definition playerMovement : Stmt :=
  (ifThenElse thrust
     (assign (upd (fun g =>
        set_playerVelocity
          (playerVelocity g + 0.002 * (deltaTime / 16.67)) g)))
     (assign (upd (fun g =>
        set_playerVelocity
          (playerVelocity g - 0.002 * (deltaTime / 16.67)) g))) ;;
   assign (upd (fun g =>
     set_playerVelocity
       (Math.max (-0.06) (Math.min 0.06 (playerVelocity g))) g)) ;;
   assign (upd (fun g =>
     set_playerY
       (playerY g + playerVelocity g * (deltaTime / 16.67)) g)))%stmt.

(** [gameState.playerY > 1.8 || gameState.playerY < -1.8] *)
Definition hitsWall (w : World) : bool :=
  (if Qlt_le_dec 1.8 (playerY (gameState w)) then true else false)
  || (if Qlt_le_dec (playerY (gameState w)) (-1.8) then true else false).

(** [// Wall collision] *)
Definition wallCollision : Stmt :=
  ifThenElse hitsWall
    (assign (upd (fun g => set_life (Z.max 0 (life g - 10)) g)) ;;
     call (fun _ => showDamageFlash) ;;
     call (fun _ => playCollisionSound "wall") ;;
     ifThenElse
       (fun w => if Qlt_le_dec 0 (playerY (gameState w))
                 then true else false)
       (assign (upd (set_playerVelocity (-0.06))))
       (assign (upd (set_playerVelocity 0.06))) ;;
     assign (upd (fun g =>
       set_playerY (Math.max (-1.8) (Math.min 1.8 (playerY g))) g)))%stmt
    skip.

(** [// Update camera position] *)
Definition updateCamera : Stmt :=
  (assign (fun w =>
     set_cameraPos
       (mkVec3 (c0 (cameraPos w)) (playerY (gameState w))
               (c2 (cameraPos w))) w) ;;
   assign (fun w =>
     set_cameraPos
       (mkVec3 (c0 (cameraPos w)) (c1 (cameraPos w))
               (c2 (cameraPos w)
                + speed (gameState w) * (deltaTime / 16.67))) w))%stmt.

(** [// Update score] *)
Definition updateScore : Stmt :=
  assign (fun w =>
    upd (set_score (Math.floor (c2 (cameraPos w) * 10))) w).

(** [// Increase speed over time] *)
Definition increaseSpeed : Stmt :=
  assign (upd (fun g => set_speed (0.02 + time g * 0.00001) g)).

(** The object literal pushed by the spawner; its [Math.random()] calls
    are numbered in evaluation order, after the call of the trial. *)
Definition spawned (w : World) : Obstacle.t :=
  {| Obstacle.x := (random 1 - 0.5) * 3;
     Obstacle.y := (random 2 - 0.5) * 3;
     Obstacle.z := c2 (cameraPos w) + 40;
     Obstacle.rotationX := random 3 * Math.PI * 2;
     Obstacle.rotationY := random 4 * Math.PI * 2;
     Obstacle.rotationZ := random 5 * Math.PI * 2;
     Obstacle.rotationSpeedX := (random 6 - 0.5) * 0.004 * 16;
     Obstacle.rotationSpeedY := (random 7 - 0.5) * 0.004 * 16;
     Obstacle.rotationSpeedZ := (random 8 - 0.5) * 0.004 * 16 |}.

(** [Math.random() < currentSpawnRate] *)
Definition spawnTrial (w : World) : bool :=
  let baseSpawnRate := 0.01 in
  let difficultyMultiplier := getDifficultyMultiplier w in
  let currentSpawnRate := baseSpawnRate * difficultyMultiplier in
  if Qlt_le_dec (random 0) currentSpawnRate then true else false.

(** [// Spawn obstacles with increasing frequency based on progress] *)
Definition spawnObstacles : Stmt :=
  ifThenElse spawnTrial
    (assign (fun w => set_obstacles (obstacles w ++ [spawned w]) w))
    skip.

(** The three [+=] on the rotation angles of the visited object. *)
Definition rotate (o : Obstacle.t) : Obstacle.t :=
  {| Obstacle.x := Obstacle.x o;
     Obstacle.y := Obstacle.y o;
     Obstacle.z := Obstacle.z o;
     Obstacle.rotationX :=
       Obstacle.rotationX o + Obstacle.rotationSpeedX o * (deltaTime / 16.67);
     Obstacle.rotationY :=
       Obstacle.rotationY o + Obstacle.rotationSpeedY o * (deltaTime / 16.67);
     Obstacle.rotationZ :=
       Obstacle.rotationZ o + Obstacle.rotationSpeedZ o * (deltaTime / 16.67);
     Obstacle.rotationSpeedX := Obstacle.rotationSpeedX o;
     Obstacle.rotationSpeedY := Obstacle.rotationSpeedY o;
     Obstacle.rotationSpeedZ := Obstacle.rotationSpeedZ o |}.

(** [distance < 0.5] for the visited obstacle. *)
Definition collides (o : Obstacle.t) (w : World) : bool :=
  let dx := Obstacle.x o - 0 in
  let dy := Obstacle.y o - playerY (gameState w) in
  let dz := Obstacle.z o - (c2 (cameraPos w) + 0.5) in
  Math.sqrt_lt (dx * dx + dy * dy + dz * dz) 0.5.

(** [obstacle.z < cameraPos[2] - 5] *)
Definition behindCamera (o : Obstacle.t) (w : World) : bool :=
  if Qlt_le_dec (Obstacle.z o) (c2 (cameraPos w) - 5) then true else false.

(** [obstacles.splice(index, 1)]: removes the element currently at
    [index], shifting the later ones down; nothing when [index] is past
    the end. *)
Definition splice1 (index : nat) : Stmt :=
  assign (fun w => set_obstacles (delete index (obstacles w)) w).

(** The arrow function given to [forEach].  [obstacle] is the object that
    sits at [index] when the call is made; the rotation is written into
    that object, so into the array. *)
Definition callback (obstacle : Obstacle.t) (index : nat) : Stmt :=
  (assign (fun w =>
     set_obstacles (<[index := rotate obstacle]> (obstacles w)) w) ;;
   ifThenElse (collides obstacle)
     (assign (upd (fun g => set_life (Z.max 0 (life g - 20)) g)) ;;
      call (fun _ => showDamageFlash) ;;
      call (fun _ => playCollisionSound "obstacle") ;;
      splice1 index)
     skip ;;
   ifThenElse (behindCamera obstacle)
     (splice1 index)
     skip)%stmt.

End Frame.

(** [Array.prototype.forEach]: the length is read once, before the first
    call; index [k] runs from 0 to that length minus one; at each index the
    element is read from the array as it is then, and an index that is no
    longer in the array is passed over without a call. *)
Fixpoint forEachFrom (remaining k : nat)
    (f : Obstacle.t -> nat -> Stmt) : Stmt :=
  match remaining with
  | O => skip
  | S remaining' =>
      ((fun w => match obstacles w !! k with
                 | Some kValue => f kValue k w
                 | None => skip w
                 end) ;;
       forEachFrom remaining' (S k) f)%stmt
  end.

Definition forEach (f : Obstacle.t -> nat -> Stmt) : Stmt := fun w =>
  forEachFrom (length (obstacles w)) 0 f w.

(** [// Update obstacles] *)
Definition updateObstacles (deltaTime : Q) : Stmt :=
  forEach (callback deltaTime).

(** [// Check game over] *)
Definition checkGameOver : Stmt :=
  ifThenElse (fun w => (life (gameState w) <=? 0)%Z)
    (assign (upd (set_gameRunning false)) ;;
     call (fun w => showGameOver (score (gameState w))))%stmt
    skip.

(** The part of [updateGame] below the two early returns. *)
Definition simulate (deltaTime : Q) (random : nat -> Q) : Stmt :=
  (assign (upd (fun g => set_time (time g + deltaTime) g)) ;;
   playerMovement deltaTime ;;
   wallCollision ;;
   updateCamera deltaTime ;;
   updateScore ;;
   increaseSpeed ;;
   spawnObstacles random ;;
   updateObstacles deltaTime ;;
   checkGameOver ;;
   call (fun w => updateUI (life (gameState w)) (score (gameState w))))%stmt.

Definition updateGame (deltaTime : Q) (random : nat -> Q) : Stmt :=
  ifThenElse (fun w => showTitle (gameState w))
    (call (fun _ => showTitleScreen))
    (ifThenElse (fun w => negb (gameRunning (gameState w)))
       skip
       (simulate deltaTime random)).

Definition startGame : Stmt :=
  (assign (upd (set_showTitle false)) ;;
   assign (upd (set_gameRunning true)) ;;
   call (fun _ => playMelody "start") ;;
   call (fun w => updateUI (life (gameState w)) (score (gameState w))))%stmt.

Definition restartGame : Stmt :=
  (assign (set_gameState initialGameState) ;;
   assign (set_cameraPos (mkVec3 0 0 0)) ;;
   assign (set_obstacles []) ;;
   call (fun _ => showTitleScreen))%stmt.

(** *** The listeners of [setupInput], the frame callback, the restart button *)

Inductive Event :=
| keydown (code : string)
| keyup (code : string)
| mousedown (onFullscreenBtn : bool)
| mouseup
| touchstart (onFullscreenBtn : bool)
| touchend
| touchcancel
| animationFrame (deltaTime : Q) (random : nat -> Q)
| restartClick.

Definition setKey (code : string) (v : bool) : Stmt :=
  assign (fun w => set_keys (<[code := v]> (keys w)) w).

Definition startIfTitle : Stmt :=
  ifThenElse (fun w => showTitle (gameState w)) startGame skip.

Definition handle (e : Event) : Stmt :=
  match e with
  | keydown code =>
      (setKey code true ;;
       if String.eqb code "Space" then startIfTitle else skip)%stmt
  | keyup code => setKey code false
  | mousedown onFullscreenBtn =>
      if onFullscreenBtn then skip
      else (setKey "MouseClick" true ;; startIfTitle)%stmt
  | mouseup => setKey "MouseClick" false
  | touchstart onFullscreenBtn =>
      if onFullscreenBtn then skip
      else (setKey "Touch" true ;; startIfTitle)%stmt
  | touchend => setKey "Touch" false
  | touchcancel => setKey "Touch" false
  | animationFrame deltaTime random => updateGame deltaTime random
  | restartClick => restartGame
  end.

(** The world after a sequence of events, from page load. *)
Definition run (events : list Event) : World :=
  fold_left (fun w e => fst (handle e w)) events initialWorld.

(** ** Vocabulary of the statements *)

(** The blocks before the obstacle loop, grouped: what moves the player, and
    what moves the world forward. *)
Definition kinematics (deltaTime : Q) : Stmt :=
  (assign (upd (fun g => set_time (time g + deltaTime) g)) ;;
   playerMovement deltaTime ;;
   wallCollision)%stmt.

Definition progress (deltaTime : Q) (random : nat -> Q) : Stmt :=
  (updateCamera deltaTime ;;
   updateScore ;;
   increaseSpeed ;;
   spawnObstacles random)%stmt.

(** The world in which the obstacle loop of a frame runs. *)
Definition atLoop (dt : Q) (random : nat -> Q) (w : World) : World :=
  fst (progress dt random (fst (kinematics dt w))).

(** The velocity after the acceleration and the clamp, and the offset after
    the integration, as functions of the world at the start of the frame. *)
Definition velocityAfter (dt : Q) (w : World) : Q :=
  let v := playerVelocity (gameState w) in
  Math.max (-0.06)
    (Math.min 0.06
       (if thrust w then v + 0.002 * (dt / 16.67)
        else v - 0.002 * (dt / 16.67))).

Definition offsetAfter (dt : Q) (w : World) : Q :=
  playerY (gameState w) + velocityAfter dt w * (dt / 16.67).

(** The damage a recorded collision sound stands for: the wall block
    subtracts 10 where it plays ['wall'], the obstacle callback subtracts 20
    where it plays ['obstacle']. *)
Definition damageOf (e : Effect) : list Z :=
  match e with
  | playCollisionSound type =>
      if String.eqb type "wall" then [10%Z]
      else if String.eqb type "obstacle" then [20%Z] else []
  | _ => []
  end.

Definition damages (es : list Effect) : list Z := es ≫= damageOf.

(** [Math.max(0, life - d)] for each damage in turn. *)
Definition applyDamages (ds : list Z) (l : Z) : Z :=
  fold_left (fun l d => Z.max 0 (l - d)) ds l.

(** [w'] is [w] but for [obstacles] and for [life], which received the
    damages recorded in [es]. *)
Definition damagedBy (es : list Effect) (w w' : World) : Prop :=
  gameState w' =
    set_life (applyDamages (damages es) (life (gameState w))) (gameState w)
  /\ keys w' = keys w
  /\ cameraPos w' = cameraPos w.

(** [life] after the wall block; the calls made by the obstacle loop; [life]
    after the loop. *)
Definition lifeAfterWall (dt : Q) (w : World) : Z :=
  life (gameState (fst (wallCollision (fst (playerMovement dt w))))).

Definition obstacleEffects (dt : Q) (random : nat -> Q) (w : World) :
    list Effect :=
  snd (updateObstacles dt (fst (progress dt random (fst (kinematics dt w))))).

Definition lifeAfter (dt : Q) (random : nat -> Q) (w : World) : Z :=
  applyDamages (damages (obstacleEffects dt random w)) (lifeAfterWall dt w).

(** The calls the obstacle callback makes. *)
Definition isObstacleHit (e : Effect) : Prop :=
  e = showDamageFlash \/ e = playCollisionSound "obstacle".

(** The score a call shows to the player, when it shows one. *)
Definition reportedScore (e : Effect) : option Z :=
  match e with
  | showGameOver finalScore => Some finalScore
  | updateUI _ shownScore => Some shownScore
  | _ => None
  end.

(** The sign of a number, as 1, -1 or 0. *)
Definition sign (a : Q) : Q :=
  if Qlt_le_dec 0 a then 1 else if Qlt_le_dec a 0 then -1 else 0.

(** What every world reachable from page load satisfies. *)
Record Inv (w : World) : Prop := {
  inv_life : (0 <= life (gameState w) <= 100)%Z;
  inv_title : showTitle (gameState w) = true ->
              (life (gameState w) = 100)%Z;
  inv_over : life (gameState w) = 0%Z <-> phase w = GAME_OVER;
  inv_offset : -1.8 <= playerY (gameState w) <= 1.8;
  inv_velocity : -0.06 <= playerVelocity (gameState w) <= 0.06;
  inv_score : score (gameState w) = Math.floor (c2 (cameraPos w) * 10)
}.

(** Consecutive frames with no input event in between: the worlds at the
    end of each. *)
Fixpoint playFrames (fs : list (Q * (nat -> Q))) (w : World) : list World :=
  match fs with
  | [] => []
  | (dt, random) :: fs' =>
      let w' := fst (updateGame dt random w) in
      w' :: playFrames fs' w'
  end.

(** Frame times are non-negative and no running frame of the run has a wall
    collision. *)
Fixpoint wallFree (fs : list (Q * (nat -> Q))) (w : World) : Prop :=
  match fs with
  | [] => True
  | (dt, random) :: fs' =>
      0 <= dt
      /\ (phase w = RUNNING -> hitsWall (fst (playerMovement dt w)) = false)
      /\ wallFree fs' (fst (updateGame dt random w))
  end.

(** Each element is at most the next. *)
Fixpoint nonDecreasing (l : list Q) : Prop :=
  match l with
  | a :: (b :: _) as t => a <= b /\ nonDecreasing t
  | _ => True
  end.

(** ** Sample worlds and frames *)

(** A frame in which every [Math.random()] returns 0.5: no spawn while the
    score is below 49000. *)
Definition quiet : nat -> Q := fun _ => 0.5.

(** A frame in which the trial draws 0 and spawns, at x = 0, y = 1.47. *)
Definition spawning : nat -> Q := fun k =>
  match k with
  | 0%nat => 0
  | 1%nat => 0.5
  | 2%nat => 0.99
  | _ => 0.25
  end.

(** Running, thrust held, at the upper wall with full upward speed. *)
Definition atUpperWall (l : Z) : World :=
  {| gameState :=
       {| life := l; score := 4; speed := 0.025; playerY := 1.8;
          playerVelocity := 0.06; gameRunning := true; showTitle := false;
          time := 500 |};
     keys := {["Space" := true]};
     cameraPos := mkVec3 0 1.8 0.41;
     obstacles := [] |}.

(** Space pressed on the title screen and held for six frames of 83.35 ms
    (five reference frames each), released for three, pressed again.  The
    velocity goes 0.01, 0.02, ..., 0.06, then 0.05, 0.04, 0.03; the offset
    0.05, 0.15, 0.3, 0.5, 0.75, 1.05, then 1.3, 1.5, 1.65. *)
Definition bounceEvents : list Event :=
  [keydown "Space"] ++ repeat (animationFrame 83.35 quiet) 6
  ++ [keyup "Space"] ++ repeat (animationFrame 83.35 quiet) 3
  ++ [keydown "Space"].

(** Two obstacles in spawn order.  The older one is about to fall more than
    5 behind the camera; the younger one, spawned 5.6 further on, sits on
    the craft. *)
Definition older : Obstacle.t :=
  {| Obstacle.x := 1; Obstacle.y := 1; Obstacle.z := 40;
     Obstacle.rotationX := 0; Obstacle.rotationY := 0;
     Obstacle.rotationZ := 0;
     Obstacle.rotationSpeedX := 0.01; Obstacle.rotationSpeedY := 0.01;
     Obstacle.rotationSpeedZ := 0.01 |}.

Definition younger : Obstacle.t :=
  {| Obstacle.x := 0; Obstacle.y := 0; Obstacle.z := 45.6;
     Obstacle.rotationX := 0; Obstacle.rotationY := 0;
     Obstacle.rotationZ := 0;
     Obstacle.rotationSpeedX := 0.01; Obstacle.rotationSpeedY := 0.01;
     Obstacle.rotationSpeedZ := 0.01 |}.

(** Running, no key held, on the axis, the camera at 45.05. *)
Definition flying (l : list Obstacle.t) : World :=
  {| gameState :=
       {| life := 100; score := 450; speed := 0.03; playerY := 0;
          playerVelocity := 0; gameRunning := true; showTitle := false;
          time := 1000 |};
     keys := ∅;
     cameraPos := mkVec3 0 0 45.05;
     obstacles := l |}.

(** Space starts the game and stays held; the first frame spawns an
    obstacle, a frame after a stall of 4.7 s spawns a second one 5.6 further
    on. *)
Definition stallEvents : list Event :=
  [keydown "Space"; animationFrame 16.67 spawning;
   animationFrame (16.67 * 280) spawning].

(** ** The frame driver and the reading of events *)






(** Every frame of the sequence has a non-negative frame time. *)
Definition nonnegFrames (events : list Event) : Prop :=
  Forall (fun e => match e with
                   | animationFrame deltaTime _ => 0 <= deltaTime
                   | _ => True
                   end) events.

(** The entry of [keys] an event clears, if it is a release. *)
Definition released (e : Event) : option string :=
  match e with
  | keyup code => Some code
  | mouseup => Some "MouseClick"
  | touchend => Some "Touch"
  | touchcancel => Some "Touch"
  | _ => None
  end.

(** The events whose listener calls [startGame] on the title screen. *)
Definition startsGame (e : Event) : bool :=
  match e with
  | keydown code => String.eqb code "Space"
  | mousedown onFullscreenBtn => negb onFullscreenBtn
  | touchstart onFullscreenBtn => negb onFullscreenBtn
  | _ => false
  end.

(** Where an obstacle is, and how it spins: what the loop never writes. *)
Definition placement (o : Obstacle.t) : Q * Q * Q * (Q * Q * Q) :=
  (Obstacle.x o, Obstacle.y o, Obstacle.z o,
   (Obstacle.rotationSpeedX o, Obstacle.rotationSpeedY o,
    Obstacle.rotationSpeedZ o)).

(** The obstacle is neither within collision distance nor behind the
    camera. *)
Definition stays (w : World) (o : Obstacle.t) : Prop :=
  collides o w = false /\ behindCamera o w = false.

(** [Math.random()] returns a number in [0, 1). *)
Definition unitInterval (random : nat -> Q) : Prop :=
  forall k, 0 <= random k < 1.

(** The camera sits on the axis sideways and at the height of the craft;
    the speed is the base speed plus the share of the elapsed time. *)
Record Follows (w : World) : Prop := {
  follows_c0 : c0 (cameraPos w) = 0;
  follows_c1 : c1 (cameraPos w) = playerY (gameState w);
  follows_speed : speed (gameState w) == 0.02 + time (gameState w) * 0.00001
}.

(** Nothing has gone backwards since page load. *)
Record Forward (w : World) : Prop := {
  forward_time : 0 <= time (gameState w);
  forward_speed : 0.02 <= speed (gameState w);
  forward_camera : 0 <= c2 (cameraPos w);
  forward_score : (0 <= score (gameState w))%Z
}.

(** An obstacle as the spawner makes them, seen from a camera at [c]: within
    1.5 of the axis sideways, at least 40 from the start and at most 40
    ahead of the camera, spinning by less than 0.032 per reference frame. *)
Definition inField (c : Q) (pl : Q * Q * Q * (Q * Q * Q)) : Prop :=
  let '(x, y, z, (sx, sy, sz)) := pl in
  (-1.5 <= x < 1.5 /\ -1.5 <= y < 1.5)
  /\ (40 <= z <= c + 40)
  /\ (-0.032 <= sx < 0.032 /\ -0.032 <= sy < 0.032 /\ -0.032 <= sz < 0.032).

(** Frames with a non-negative frame time and random numbers in [0, 1). *)
Definition plainFrames (events : list Event) : Prop :=
  Forall (fun e => match e with
                   | animationFrame deltaTime random =>
                       0 <= deltaTime /\ unitInterval random
                   | _ => True
                   end) events.

(** [o'] is an obstacle of [l] as it was, or with its rotation advanced
    once by a frame of [dt]. *)
Definition versionOf (dt : Q) (l : list Obstacle.t) (o' : Obstacle.t) : Prop :=
  exists o, o ∈ l /\ (o' = o \/ o' = rotate dt o).

(** While index [k] is being visited: what lies at or before [k] is a
    version of an obstacle of [l], what lies after is still as in [l]. *)
Definition visitedUpTo (dt : Q) (l : list Obstacle.t) (k : nat)
    (now : list Obstacle.t) : Prop :=
  forall i o', now !! i = Some o' ->
    ((i <= k)%nat -> versionOf dt l o') /\ ((k < i)%nat -> o' ∈ l).

(** ** The high score kept by the page *)

(** [localStorage] maps keys to strings.  [parseInt] and [toString] are the
    built-ins of the language, taken as given: [parseInt] returns [None]
    where JavaScript returns [NaN]. *)
Section Storage.

Variable parseInt : string -> option Z.
Variable toString : Z -> string.

(** [localStorage.getItem('highScore') || '0']: a missing entry reads
    [null] and an empty one reads [''], both falsy. *)
Definition highScoreText (storage : gmap string string) : string :=
  match storage !! "highScore" with
  | Some s => if String.eqb s "" then "0" else s
  | None => "0"
  end.

(** [const highScore = parseInt(...)], as [showGameOver], [showTitleScreen]
    and [updateUI] all read it. *)
Definition readHighScore (storage : gmap string string) : option Z :=
  parseInt (highScoreText storage).

(** The storage after [showGameOver()] with [gameState.score = score]; the
    comparison [score > highScore] is false when [highScore] is [NaN]. *)
Definition storeHighScore (score : Z) (storage : gmap string string) :
    gmap string string :=
  match readHighScore storage with
  | Some highScore =>
      if (highScore <? score)%Z
      then <["highScore" := toString score]> storage
      else storage
  | None => storage
  end.

(** [Math.max(highScore, gameState.score)], shown as the final high score:
    [NaN] when [highScore] is. *)
Definition finalHighScore (score : Z) (storage : gmap string string) :
    option Z :=
  match readHighScore storage with
  | Some highScore => Some (Z.max highScore score)
  | None => None
  end.

(** The storage after the page has served the calls of a session; only
    [showGameOver] writes. *)
Definition serve (es : list Effect) (storage : gmap string string) :
    gmap string string :=
  fold_left (fun st e => match e with
                         | showGameOver finalScore => storeHighScore finalScore st
                         | _ => st
                         end) es storage.

End Storage.

(** Decimal numerals, as an instance of the two built-ins on integers. *)
Definition decimalOfZ (n : Z) : string :=
  DecimalString.NilZero.string_of_int (Z.to_int n).

Definition decimalToZ (s : string) : option Z :=
  option_map Z.of_int (DecimalString.NilZero.int_of_string s).

(** ** The model on small inputs *)

Example title_frame_waits :
  updateGame 16.67 quiet initialWorld = (initialWorld, [showTitleScreen]).
Proof. reflexivity. Qed.

Example space_starts_the_game :
  phase (run [keydown "Space"]) = RUNNING
  /\ snd (handle (keydown "Space") initialWorld)
     = [playMelody "start"; updateUI 100 0].
Proof. split; vm_compute; reflexivity. Qed.

Example first_frame_under_thrust :
  let w := run [keydown "Space"; animationFrame 16.67 quiet] in
  playerVelocity (gameState w) == 0.002
  /\ playerY (gameState w) == 0.002
  /\ c2 (cameraPos w) == 0.02
  /\ score (gameState w) = 0%Z
  /\ speed (gameState w) == 0.0201667.
Proof.
  cbv zeta.
  split; [vm_compute; reflexivity|].
  split; [vm_compute; reflexivity|].
  split; [vm_compute; reflexivity|].
  split; vm_compute; reflexivity.
Qed.

Example difficulty_is_linear_in_score :
  getDifficultyMultiplier initialWorld == 1
  /\ getDifficultyMultiplier (upd (set_score 1000) initialWorld) == 2.
Proof. split; vm_compute; reflexivity. Qed.

Example splice_past_the_end : delete 5%nat [1%Z; 2%Z; 3%Z] = [1%Z; 2%Z; 3%Z].
Proof. reflexivity. Qed.

(** ** Reasoning about statements *)

Lemma fst_seq (s1 s2 : Stmt) (w : World) :
  fst (seq s1 s2 w) = fst (s2 (fst (s1 w))).
Proof. reflexivity. Qed.

Lemma snd_seq (s1 s2 : Stmt) (w : World) :
  snd (seq s1 s2 w) = snd (s1 w) ++ snd (s2 (fst (s1 w))).
Proof. reflexivity. Qed.

Lemma set_life_same (g : GameState) : set_life (life g) g = g.
Proof. destruct g; reflexivity. Qed.

Lemma set_life_twice (a b : Z) (g : GameState) :
  set_life a (set_life b g) = set_life a g.
Proof. reflexivity. Qed.

Lemma set_gameState_same (w : World) : set_gameState (gameState w) w = w.
Proof. destruct w; reflexivity. Qed.

Lemma damages_app (es1 es2 : list Effect) :
  damages (es1 ++ es2) = damages es1 ++ damages es2.
Proof. unfold damages. apply bind_app. Qed.

Lemma applyDamages_app (ds1 ds2 : list Z) (l : Z) :
  applyDamages (ds1 ++ ds2) l = applyDamages ds2 (applyDamages ds1 l).
Proof. unfold applyDamages. apply fold_left_app. Qed.

Lemma applyDamages_nonneg (ds : list Z) (l : Z) :
  (0 <= l)%Z -> (0 <= applyDamages ds l)%Z.
Proof.
  revert l. induction ds as [|d ds IH]; intros l Hl; simpl; [exact Hl|].
  apply IH. lia.
Qed.

Lemma applyDamages_le (ds : list Z) (l : Z) :
  Forall (fun d => (0 <= d)%Z) ds -> (0 <= l)%Z -> (applyDamages ds l <= l)%Z.
Proof.
  intros Hds. revert l. induction Hds as [|d ds Hd _ IH]; intros l Hl; simpl.
  - lia.
  - etransitivity; [apply IH; lia|lia].
Qed.

Lemma damages_nonneg (es : list Effect) :
  Forall (fun d => (0 <= d)%Z) (damages es).
Proof.
  induction es as [|e es IH]; [constructor|].
  change (e :: es) with ([e] ++ es). rewrite damages_app.
  apply Forall_app. split; [|exact IH].
  unfold damages. simpl. rewrite app_nil_r.
  destruct e; simpl; try constructor.
  destruct (String.eqb type "wall"); [repeat constructor; lia|].
  destruct (String.eqb type "obstacle"); repeat constructor; lia.
Qed.

(** *** The square-root guard

    [Math.sqrt_lt] decides the comparison with the real square root. *)

Lemma Q2R_nonneg (a : Q) : 0 <= a -> (0 <= Q2R a)%R.
Proof.
  intros H. replace 0%R with (Q2R 0) by (unfold Q2R; simpl; field).
  apply Qle_Rle, H.
Qed.

Lemma sqrt_lt_real (s t : Q) :
  0 <= s ->
  Math.sqrt_lt s t = true <-> (sqrt (Q2R s) < Q2R t)%R.
Proof.
  intros Hs. unfold Math.sqrt_lt.
  pose proof (Q2R_nonneg s Hs) as Hs'.
  destruct (Qlt_le_dec 0 t) as [Ht|Ht].
  - pose proof (Q2R_nonneg t (Qlt_le_weak _ _ Ht)) as Ht'.
    destruct (Qlt_le_dec s (t * t)) as [Hst|Hst].
    + split; [intros _|reflexivity].
      rewrite <- (sqrt_square (Q2R t)) by exact Ht'.
      apply sqrt_lt_1_alt. split; [exact Hs'|].
      rewrite <- Q2R_mult. apply Qlt_Rlt, Hst.
    + split; [discriminate|]. intros H. exfalso.
      apply (Rlt_irrefl (Q2R t)).
      eapply Rle_lt_trans; [|exact H].
      rewrite <- (sqrt_square (Q2R t)) at 1 by exact Ht'.
      apply sqrt_le_1_alt. rewrite <- Q2R_mult. apply Qle_Rle, Hst.
  - split; [discriminate|]. intros H. exfalso.
    apply (Rlt_irrefl (Q2R t)).
    eapply Rle_lt_trans; [|exact H].
    eapply Rle_trans; [|apply sqrt_pos].
    replace 0%R with (Q2R 0) by (unfold Q2R; simpl; field).
    apply Qle_Rle, Ht.
Qed.

(** The argument of the guard in [collides] is a sum of squares. *)
Lemma distance_squared_nonneg (a b c : Q) : 0 <= a * a + b * b + c * c.
Proof. nra. Qed.

(** *** The obstacle loop touches [life] and [obstacles] only *)

Lemma damagedBy_nil (w w' : World) :
  gameState w' = gameState w -> keys w' = keys w ->
  cameraPos w' = cameraPos w -> damagedBy [] w w'.
Proof.
  intros Hg Hk Hc. repeat split; try assumption.
  simpl. rewrite set_life_same. exact Hg.
Qed.

Lemma damagedBy_trans (es1 es2 : list Effect) (w1 w2 w3 : World) :
  damagedBy es1 w1 w2 -> damagedBy es2 w2 w3 -> damagedBy (es1 ++ es2) w1 w3.
Proof.
  intros (Hg1 & Hk1 & Hc1) (Hg2 & Hk2 & Hc2). repeat split.
  - rewrite Hg2, Hg1. simpl. rewrite damages_app, applyDamages_app.
    reflexivity.
  - congruence.
  - congruence.
Qed.

Lemma callback_damagedBy (dt : Q) (o : Obstacle.t) (k : nat) (w : World) :
  damagedBy (snd (callback dt o k w)) w (fst (callback dt o k w)).
Proof.
  unfold callback, seq, ifThenElse, assign, call, skip, splice1. simpl.
  destruct (collides _ _); simpl;
    destruct (behindCamera _ _); simpl;
    repeat split; simpl; try reflexivity;
    rewrite set_life_same; reflexivity.
Qed.

Lemma forEachFrom_damagedBy (dt : Q) (n k : nat) (w : World) :
  damagedBy (snd (forEachFrom n k (callback dt) w)) w
            (fst (forEachFrom n k (callback dt) w)).
Proof.
  revert k w. induction n as [|n IH]; intros k w; cbn [forEachFrom].
  - apply damagedBy_nil; reflexivity.
  - rewrite fst_seq, snd_seq.
    eapply damagedBy_trans; [|apply IH].
    destruct (obstacles w !! k) as [o|].
    + apply callback_damagedBy.
    + apply damagedBy_nil; reflexivity.
Qed.

Lemma updateObstacles_damagedBy (dt : Q) (w : World) :
  damagedBy (snd (updateObstacles dt w)) w (fst (updateObstacles dt w)).
Proof. apply forEachFrom_damagedBy. Qed.

(** *** The frame, block by block *)

Lemma seq_assoc (s1 s2 s3 : Stmt) (w : World) :
  seq (seq s1 s2) s3 w = seq s1 (seq s2 s3) w.
Proof. unfold seq. simpl. f_equal. symmetry. apply app_assoc. Qed.

Lemma seq_ext_r (s1 s2 s2' : Stmt) (w : World) :
  (forall w1, s2 w1 = s2' w1) -> seq s1 s2 w = seq s1 s2' w.
Proof. intros H. unfold seq. rewrite H. reflexivity. Qed.

Lemma simulate_blocks (dt : Q) (random : nat -> Q) (w : World) :
  simulate dt random w =
  (kinematics dt ;; progress dt random ;; updateObstacles dt ;;
   checkGameOver ;;
   call (fun w => updateUI (life (gameState w)) (score (gameState w))))%stmt
    w.
Proof.
  unfold simulate, kinematics, progress.
  repeat (rewrite ?seq_assoc; try reflexivity; apply seq_ext_r; intros ?).
Qed.

Lemma fst_simulate (dt : Q) (random : nat -> Q) (w : World) :
  fst (simulate dt random w) =
  fst (checkGameOver
         (fst (updateObstacles dt
                 (fst (progress dt random (fst (kinematics dt w))))))).
Proof. rewrite simulate_blocks, !fst_seq. reflexivity. Qed.

Lemma playerMovement_eq (dt : Q) (w : World) :
  playerMovement dt w =
  (upd (fun g => set_playerY (offsetAfter dt w)
                   (set_playerVelocity (velocityAfter dt w) g)) w, []).
Proof.
  unfold playerMovement, seq, ifThenElse, assign, offsetAfter, velocityAfter.
  destruct (thrust w); reflexivity.
Qed.

Lemma wallCollision_hit (w : World) :
  hitsWall w = true ->
  wallCollision w =
  (upd (fun g =>
     set_playerY (Math.max (-1.8) (Math.min 1.8 (playerY g)))
       (set_playerVelocity
          (if Qlt_le_dec 0 (playerY g) then -0.06 else 0.06)
          (set_life (Z.max 0 (life g - 10)) g))) w,
   [showDamageFlash; playCollisionSound "wall"]).
Proof.
  intros H. unfold wallCollision, ifThenElse. rewrite H.
  unfold seq, ifThenElse, assign, call, upd. simpl.
  destruct (Qlt_le_dec 0 (playerY (gameState w))); reflexivity.
Qed.

Lemma wallCollision_miss (w : World) :
  hitsWall w = false -> wallCollision w = (w, []).
Proof. intros H. unfold wallCollision, ifThenElse. rewrite H. reflexivity. Qed.

(** Case split on the guard of the wall block applied in the goal, rewriting
    the block into its outcome. *)
Ltac case_wall :=
  match goal with
  | |- context [wallCollision ?x] =>
      let H := fresh "Hwall" in
      destruct (hitsWall x) eqn:H;
      [rewrite wallCollision_hit by exact H
      |rewrite wallCollision_miss by exact H]
  end.

Lemma hitsWall_iff (w : World) :
  hitsWall w = true <->
  1.8 < playerY (gameState w) \/ playerY (gameState w) < -1.8.
Proof.
  unfold hitsWall.
  destruct (Qlt_le_dec 1.8 _), (Qlt_le_dec _ (-1.8)); simpl;
    split; intros H; try reflexivity; try discriminate; auto;
    destruct H; lra.
Qed.

Lemma kinematics_eq (dt : Q) (w : World) :
  kinematics dt w =
  let r := wallCollision (fst (playerMovement dt w)) in
  (upd (fun g => set_time (time (gameState w) + dt) g) (fst r), snd r).
Proof.
  unfold kinematics, seq, assign. cbn [fst snd app].
  rewrite !playerMovement_eq. cbn [fst snd app].
  change (offsetAfter dt (upd _ w)) with (offsetAfter dt w).
  change (velocityAfter dt (upd _ w)) with (velocityAfter dt w).
  match goal with
  | |- context [wallCollision (upd ?m (upd ?t w))] =>
      set (w2 := upd m (upd t w)); set (w1 := upd m w)
  end.
  assert (Hh : hitsWall w2 = hitsWall w1) by reflexivity.
  destruct (hitsWall w1) eqn:H1.
  - rewrite !wallCollision_hit by congruence. reflexivity.
  - rewrite !wallCollision_miss by congruence. reflexivity.
Qed.

Lemma snd_kinematics (dt : Q) (w : World) :
  snd (kinematics dt w) = snd (wallCollision (fst (playerMovement dt w))).
Proof. rewrite kinematics_eq. reflexivity. Qed.

Lemma snd_progress (dt : Q) (random : nat -> Q) (w : World) :
  snd (progress dt random w) = [].
Proof.
  unfold progress, spawnObstacles, ifThenElse. rewrite !snd_seq. simpl.
  destruct (spawnTrial _ _); reflexivity.
Qed.

Lemma snd_simulate (dt : Q) (random : nat -> Q) (w : World) :
  let wk := fst (kinematics dt w) in
  let wp := fst (progress dt random wk) in
  let wo := fst (updateObstacles dt wp) in
  let w' := fst (checkGameOver wo) in
  snd (simulate dt random w) =
  snd (wallCollision (fst (playerMovement dt w)))
  ++ snd (updateObstacles dt wp)
  ++ snd (checkGameOver wo)
  ++ [updateUI (life (gameState w')) (score (gameState w'))].
Proof.
  intros wk wp wo w'. rewrite simulate_blocks, !snd_seq.
  rewrite snd_progress, snd_kinematics. reflexivity.
Qed.

Lemma progress_gameState (dt : Q) (random : nat -> Q) (w : World) :
  gameState (fst (progress dt random w)) =
  set_speed (0.02 + time (gameState w) * 0.00001)
    (set_score
       (Math.floor
          ((c2 (cameraPos w) + speed (gameState w) * (dt / 16.67)) * 10))
       (gameState w)).
Proof.
  unfold progress, spawnObstacles, seq, ifThenElse, assign, skip. simpl.
  destruct (spawnTrial _ _); reflexivity.
Qed.

Lemma progress_cameraPos (dt : Q) (random : nat -> Q) (w : World) :
  cameraPos (fst (progress dt random w)) =
  mkVec3 (c0 (cameraPos w)) (playerY (gameState w))
         (c2 (cameraPos w) + speed (gameState w) * (dt / 16.67)).
Proof.
  unfold progress, spawnObstacles, seq, ifThenElse, assign, skip. simpl.
  destruct (spawnTrial _ _); reflexivity.
Qed.

Lemma progress_keys (dt : Q) (random : nat -> Q) (w : World) :
  keys (fst (progress dt random w)) = keys w.
Proof.
  unfold progress, spawnObstacles, seq, ifThenElse, assign, skip. simpl.
  destruct (spawnTrial _ _); reflexivity.
Qed.

Lemma checkGameOver_eq (w : World) :
  checkGameOver w =
  if (life (gameState w) <=? 0)%Z
  then (upd (set_gameRunning false) w, [showGameOver (score (gameState w))])
  else (w, []).
Proof.
  unfold checkGameOver, ifThenElse.
  destruct (life (gameState w) <=? 0)%Z; reflexivity.
Qed.

(** The state a running frame leaves behind, field by field. *)

Lemma kinematics_gameState (dt : Q) (w : World) :
  gameState (fst (kinematics dt w)) =
  set_time (time (gameState w) + dt)
    (gameState (fst (wallCollision (fst (playerMovement dt w))))).
Proof. rewrite kinematics_eq. reflexivity. Qed.

Lemma kinematics_cameraPos (dt : Q) (w : World) :
  cameraPos (fst (kinematics dt w)) = cameraPos w.
Proof.
  rewrite kinematics_eq, playerMovement_eq. cbn [fst snd].
  case_wall; reflexivity.
Qed.

Lemma kinematics_keys (dt : Q) (w : World) :
  keys (fst (kinematics dt w)) = keys w.
Proof.
  rewrite kinematics_eq, playerMovement_eq. cbn [fst snd].
  case_wall; reflexivity.
Qed.

Lemma simulate_gameState (dt : Q) (random : nat -> Q) (w : World) :
  let gw := gameState (fst (wallCollision (fst (playerMovement dt w)))) in
  let c := c2 (cameraPos w) + speed (gameState w) * (dt / 16.67) in
  let l := lifeAfter dt random w in
  gameState (fst (simulate dt random w)) =
  {| life := l;
     score := Math.floor (c * 10);
     speed := 0.02 + (time (gameState w) + dt) * 0.00001;
     playerY := playerY gw;
     playerVelocity := playerVelocity gw;
     gameRunning := if (l <=? 0)%Z then false else gameRunning (gameState w);
     showTitle := showTitle (gameState w);
     time := time (gameState w) + dt |}.
Proof.
  intros gw c l. rewrite fst_simulate, checkGameOver_eq.
  set (wk := fst (kinematics dt w)).
  set (wp := fst (progress dt random wk)).
  destruct (updateObstacles_damagedBy dt wp) as (Hg & _ & _).
  assert (Hl : life (gameState (fst (updateObstacles dt wp))) = l).
  { rewrite Hg. cbn [life set_life]. unfold wp at 2.
    rewrite progress_gameState. cbn [life set_speed set_score].
    unfold wk. rewrite kinematics_gameState. reflexivity. }
  assert (Hgw : gameRunning gw = gameRunning (gameState w)
                /\ showTitle gw = showTitle (gameState w)
                /\ speed gw = speed (gameState w)).
  { unfold gw. rewrite playerMovement_eq. cbn [fst].
    case_wall; repeat split. }
  destruct Hgw as (Hr & Ht & Hs).
  assert (E : gameState (fst (updateObstacles dt wp)) =
    {| life := l; score := Math.floor (c * 10);
       speed := 0.02 + (time (gameState w) + dt) * 0.00001;
       playerY := playerY gw; playerVelocity := playerVelocity gw;
       gameRunning := gameRunning (gameState w);
       showTitle := showTitle (gameState w);
       time := time (gameState w) + dt |}).
  { rewrite Hg. fold (obstacleEffects dt random w).
    unfold wp. rewrite progress_gameState.
    unfold wk. rewrite kinematics_gameState, kinematics_cameraPos.
    fold gw. unfold set_life, set_speed, set_score, set_time.
    cbn [life score speed playerY playerVelocity gameRunning showTitle time].
    rewrite Hr, Ht, Hs. reflexivity. }
  rewrite Hl. destruct (l <=? 0)%Z.
  - cbn [fst]. unfold upd, set_gameState. cbn [gameState]. rewrite E.
    reflexivity.
  - cbn [fst]. exact E.
Qed.

Lemma simulate_cameraPos (dt : Q) (random : nat -> Q) (w : World) :
  cameraPos (fst (simulate dt random w)) =
  mkVec3 (c0 (cameraPos w))
         (playerY (gameState (fst (simulate dt random w))))
         (c2 (cameraPos w) + speed (gameState w) * (dt / 16.67)).
Proof.
  rewrite simulate_gameState. cbn [playerY].
  rewrite fst_simulate, checkGameOver_eq.
  set (wk := fst (kinematics dt w)).
  set (wp := fst (progress dt random wk)).
  destruct (updateObstacles_damagedBy dt wp) as (_ & _ & Hc).
  assert (E : cameraPos (fst (updateObstacles dt wp)) =
    mkVec3 (c0 (cameraPos w))
      (playerY (gameState (fst (wallCollision (fst (playerMovement dt w))))))
      (c2 (cameraPos w) + speed (gameState w) * (dt / 16.67))).
  { rewrite Hc. unfold wp. rewrite progress_cameraPos.
    unfold wk. rewrite kinematics_cameraPos, kinematics_gameState.
    cbn [playerY set_time speed].
    rewrite playerMovement_eq. cbn [fst].
    case_wall; reflexivity. }
  destruct (_ <=? 0)%Z; cbn [fst]; exact E.
Qed.

Lemma simulate_keys (dt : Q) (random : nat -> Q) (w : World) :
  keys (fst (simulate dt random w)) = keys w.
Proof.
  rewrite fst_simulate, checkGameOver_eq.
  set (wk := fst (kinematics dt w)).
  set (wp := fst (progress dt random wk)).
  destruct (updateObstacles_damagedBy dt wp) as (_ & Hk & _).
  assert (E : keys (fst (updateObstacles dt wp)) = keys w).
  { rewrite Hk. unfold wp. rewrite progress_keys. apply kinematics_keys. }
  destruct (_ <=? 0)%Z; cbn [fst]; exact E.
Qed.

(** *** Clamps *)

Lemma clamp_bounds (lo hi a : Q) :
  lo <= hi -> lo <= Math.max lo (Math.min hi a) <= hi.
Proof.
  intros H. unfold Math.max, Math.min.
  destruct (Qlt_le_dec a hi).
  - destruct (Qlt_le_dec lo a); split; lra.
  - destruct (Qlt_le_dec lo hi); split; lra.
Qed.




Lemma velocityAfter_bounds (dt : Q) (w : World) :
  -0.06 <= velocityAfter dt w <= 0.06.
Proof. unfold velocityAfter. apply clamp_bounds. lra. Qed.

(** The two outcomes of the wall block, on the state just integrated. *)
Lemma afterWall_cases (dt : Q) (w : World) :
  let r := wallCollision (fst (playerMovement dt w)) in
  let y1 := offsetAfter dt w in
  ((1.8 < y1 \/ y1 < -1.8)
   /\ snd r = [showDamageFlash; playCollisionSound "wall"]
   /\ life (gameState (fst r)) = Z.max 0 (life (gameState w) - 10)
   /\ playerVelocity (gameState (fst r)) =
        (if Qlt_le_dec 0 y1 then -0.06 else 0.06)
   /\ playerY (gameState (fst r)) = Math.max (-1.8) (Math.min 1.8 y1))
  \/
  (-1.8 <= y1 <= 1.8
   /\ snd r = []
   /\ life (gameState (fst r)) = life (gameState w)
   /\ playerVelocity (gameState (fst r)) = velocityAfter dt w
   /\ playerY (gameState (fst r)) = y1).
Proof.
  intros r y1. subst r. rewrite playerMovement_eq. cbn [fst].
  match goal with |- context [wallCollision ?x] =>
    destruct (hitsWall x) eqn:H end.
  - left. rewrite wallCollision_hit by exact H.
    apply hitsWall_iff in H. cbn in H. fold y1 in H.
    split; [exact H|]. repeat split.
  - right. rewrite wallCollision_miss by exact H.
    assert (Hn : ~ (1.8 < y1 \/ y1 < -1.8)).
    { intros Hc.
      match type of H with hitsWall ?x = _ =>
        rewrite (proj2 (hitsWall_iff x) Hc) in H end.
      discriminate. }
    split; [|repeat split].
    destruct (Qlt_le_dec 1.8 y1); [tauto|].
    destruct (Qlt_le_dec y1 (-1.8)); [tauto|]. split; assumption.
Qed.

Lemma afterWall_bounds (dt : Q) (w : World) :
  let g := gameState (fst (wallCollision (fst (playerMovement dt w)))) in
  -1.8 <= playerY g <= 1.8 /\ -0.06 <= playerVelocity g <= 0.06.
Proof.
  destruct (afterWall_cases dt w) as [(_ & _ & _ & Hv & Hy)|(Hy1 & _ & _ & Hv & Hy)];
    cbv zeta; rewrite Hv, Hy.
  - split; [apply clamp_bounds; lra|].
    destruct (Qlt_le_dec 0 _); lra.
  - split; [exact Hy1|apply velocityAfter_bounds].
Qed.

Lemma lifeAfterWall_bounds (dt : Q) (w : World) :
  (0 <= life (gameState w))%Z ->
  (0 <= lifeAfterWall dt w <= life (gameState w))%Z.
Proof.
  intros H. unfold lifeAfterWall.
  destruct (afterWall_cases dt w) as [(_ & _ & Hl & _)|(_ & _ & Hl & _)];
    rewrite Hl; lia.
Qed.

Lemma lifeAfter_bounds (dt : Q) (random : nat -> Q) (w : World) :
  (0 <= life (gameState w))%Z ->
  (0 <= lifeAfter dt random w <= life (gameState w))%Z.
Proof.
  intros H. destruct (lifeAfterWall_bounds dt w H) as [H0 H1].
  unfold lifeAfter. split.
  - apply applyDamages_nonneg, H0.
  - etransitivity; [apply applyDamages_le|exact H1].
    + apply damages_nonneg.
    + exact H0.
Qed.

(** ** What every reachable world satisfies *)

Lemma Inv_initial : Inv initialWorld.
Proof.
  split; simpl; try lia; try lra; try reflexivity.
  split; discriminate.
Qed.

Lemma Inv_set_keys (k : gmap string bool) (w : World) :
  Inv w -> Inv (set_keys k w).
Proof. intros [? ? ? ? ? ?]. split; assumption. Qed.

Lemma Inv_restartGame (w : World) : Inv (fst (restartGame w)).
Proof.
  split; simpl; try lia; try lra; try reflexivity.
  split; discriminate.
Qed.

Lemma Inv_startIfTitle (w : World) : Inv w -> Inv (fst (startIfTitle w)).
Proof.
  intros H. unfold startIfTitle, ifThenElse.
  destruct (showTitle (gameState w)) eqn:Ht; [|exact H].
  destruct H as [Hl Htt Ho Hy Hv Hs]. specialize (Htt Ht).
  split; unfold phase; simpl; try assumption.
  - discriminate.
  - rewrite Htt. split; discriminate.
Qed.

Lemma Inv_simulate (dt : Q) (random : nat -> Q) (w : World) :
  phase w = RUNNING -> Inv w -> Inv (fst (simulate dt random w)).
Proof.
  intros Hp [Hl Htt Ho Hy Hv Hs].
  unfold phase in Hp.
  destruct (showTitle (gameState w)) eqn:Ht; [discriminate|].
  destruct (gameRunning (gameState w)) eqn:Hr; [|discriminate].
  destruct (lifeAfter_bounds dt random w (proj1 Hl)) as [Hl0 Hl1].
  destruct (afterWall_bounds dt w) as [Hy' Hv'].
  split; unfold phase; rewrite ?simulate_cameraPos, simulate_gameState;
    cbn [life score speed playerY playerVelocity gameRunning showTitle time c2].
  - lia.
  - rewrite Ht. discriminate.
  - rewrite Ht, Hr. destruct (Z.leb_spec (lifeAfter dt random w) 0).
    + split; [reflexivity|lia].
    + split; [lia|discriminate].
  - exact Hy'.
  - exact Hv'.
  - reflexivity.
Qed.

Lemma updateGame_eq (dt : Q) (random : nat -> Q) (w : World) :
  updateGame dt random w =
  match phase w with
  | TITLE => (w, [showTitleScreen])
  | RUNNING => simulate dt random w
  | GAME_OVER => (w, [])
  end.
Proof.
  unfold updateGame, ifThenElse, phase, call, skip.
  destruct (showTitle (gameState w)); [reflexivity|].
  destruct (gameRunning (gameState w)); reflexivity.
Qed.

Lemma Inv_updateGame (dt : Q) (random : nat -> Q) (w : World) :
  Inv w -> Inv (fst (updateGame dt random w)).
Proof.
  intros H. rewrite updateGame_eq. destruct (phase w) eqn:Hp.
  - exact H.
  - apply Inv_simulate; assumption.
  - exact H.
Qed.

Lemma Inv_handle (e : Event) (w : World) : Inv w -> Inv (fst (handle e w)).
Proof.
  intros H. destruct e as [code|code|b| |b| | |dt random| ]; cbn [handle].
  - rewrite fst_seq. destruct (String.eqb code "Space").
    + apply Inv_startIfTitle, Inv_set_keys, H.
    + apply Inv_set_keys, H.
  - apply Inv_set_keys, H.
  - destruct b; [exact H|]. rewrite fst_seq.
    apply Inv_startIfTitle, Inv_set_keys, H.
  - apply Inv_set_keys, H.
  - destruct b; [exact H|]. rewrite fst_seq.
    apply Inv_startIfTitle, Inv_set_keys, H.
  - apply Inv_set_keys, H.
  - apply Inv_set_keys, H.
  - apply Inv_updateGame, H.
  - apply Inv_restartGame.
Qed.

Lemma run_snoc (events : list Event) (e : Event) :
  run (events ++ [e]) = fst (handle e (run events)).
Proof. unfold run. rewrite fold_left_app. reflexivity. Qed.

Lemma Inv_run (events : list Event) : Inv (run events).
Proof.
  induction events as [|e events IH] using rev_ind.
  - apply Inv_initial.
  - rewrite run_snoc. apply Inv_handle, IH.
Qed.

(** *** What the loop and the closing blocks report *)

Lemma callback_effects (dt : Q) (o : Obstacle.t) (k : nat) (w : World) :
  Forall isObstacleHit (snd (callback dt o k w)).
Proof.
  unfold callback, seq, ifThenElse, assign, call, skip, splice1. simpl.
  destruct (collides _ _); simpl; destruct (behindCamera _ _); simpl;
    repeat (apply Forall_cons_2; [unfold isObstacleHit; auto|]);
    apply Forall_nil_2.
Qed.

Lemma forEachFrom_effects (dt : Q) (n k : nat) (w : World) :
  Forall isObstacleHit (snd (forEachFrom n k (callback dt) w)).
Proof.
  revert k w. induction n as [|n IH]; intros k w; cbn [forEachFrom].
  - constructor.
  - rewrite snd_seq. apply Forall_app. split; [|apply IH].
    destruct (obstacles w !! k); [apply callback_effects|constructor].
Qed.

Lemma obstacleEffects_hits (dt : Q) (random : nat -> Q) (w : World) :
  Forall isObstacleHit (obstacleEffects dt random w).
Proof. apply forEachFrom_effects. Qed.

Lemma score_before_checkGameOver (dt : Q) (random : nat -> Q) (w : World) :
  let wp := fst (progress dt random (fst (kinematics dt w))) in
  score (gameState (fst (updateObstacles dt wp))) =
  score (gameState (fst (simulate dt random w))).
Proof.
  intros wp. rewrite fst_simulate. fold wp. rewrite checkGameOver_eq.
  destruct (_ <=? 0)%Z; reflexivity.
Qed.

Lemma simulate_reportedScore (dt : Q) (random : nat -> Q) (w : World) :
  Forall (fun e => forall s, reportedScore e = Some s ->
                   s = score (gameState (fst (simulate dt random w))))
         (snd (simulate dt random w)).
Proof.
  rewrite snd_simulate. cbv zeta.
  set (wp := fst (progress dt random (fst (kinematics dt w)))).
  repeat (apply Forall_app; split).
  - destruct (afterWall_cases dt w) as [(_ & He & _)|(_ & He & _)];
      rewrite He; repeat constructor; intros s; discriminate.
  - eapply Forall_impl; [apply (forEachFrom_effects dt)|].
    intros e [->| ->] s; discriminate.
  - rewrite checkGameOver_eq. destruct (_ <=? 0)%Z; repeat constructor.
    intros s [= <-]. apply score_before_checkGameOver.
  - repeat constructor. intros s [= <-].
    rewrite fst_simulate. reflexivity.
Qed.

Lemma simulate_damages (dt : Q) (random : nat -> Q) (w : World) :
  life (gameState (fst (simulate dt random w))) =
  applyDamages (damages (snd (simulate dt random w))) (life (gameState w)).
Proof.
  rewrite simulate_gameState, snd_simulate. cbn [life].
  rewrite !damages_app, !applyDamages_app.
  set (wp := fst (progress dt random (fst (kinematics dt w)))).
  assert (H1 : damages (snd (checkGameOver (fst (updateObstacles dt wp)))) = []).
  { rewrite checkGameOver_eq. destruct (_ <=? 0)%Z; reflexivity. }
  rewrite H1. cbn [damages mbind list_bind damageOf app applyDamages fold_left].
  unfold lifeAfter, lifeAfterWall. fold wp. f_equal.
  destruct (afterWall_cases dt w) as [(_ & He & Hl & _)|(_ & He & Hl & _)];
    rewrite He, Hl; reflexivity.
Qed.

Lemma kinematics_obstacles (dt : Q) (w : World) :
  obstacles (fst (kinematics dt w)) = obstacles w.
Proof.
  rewrite kinematics_eq, playerMovement_eq. cbn [fst snd].
  case_wall; reflexivity.
Qed.

Lemma simulate_obstacles (dt : Q) (random : nat -> Q) (w : World) :
  obstacles (fst (simulate dt random w)) =
  obstacles (fst (updateObstacles dt
                    (fst (progress dt random (fst (kinematics dt w)))))).
Proof.
  rewrite fst_simulate, checkGameOver_eq.
  destruct (_ <=? 0)%Z; reflexivity.
Qed.

(** *** Thrust, and the loop under removal *)

Lemma offsetAfter_eq (dt : Q) (w : World) :
  playerY (gameState (fst (playerMovement dt w))) = offsetAfter dt w.
Proof. rewrite playerMovement_eq. reflexivity. Qed.

Lemma progress_obstacles (dt : Q) (random : nat -> Q) (w : World) :
  let c := c2 (cameraPos w) + speed (gameState w) * (dt / 16.67) in
  obstacles (fst (progress dt random w)) =
  if Qlt_le_dec (random 0%nat)
       (0.01 * (1 + inject_Z (Math.floor (c * 10)) / 1000))
  then obstacles w
       ++ [spawned random (set_cameraPos (mkVec3 0 0 c) w)]
  else obstacles w.
Proof.
  unfold progress, spawnObstacles, seq, ifThenElse, assign, skip, spawnTrial,
    getDifficultyMultiplier. simpl.
  destruct (Qlt_le_dec (random 0%nat) _); reflexivity.
Qed.

Lemma step_nonneg (dt : Q) : 0 <= dt -> 0 <= 0.002 * (dt / 16.67).
Proof.
  intros H. assert (0 <= dt / 16.67) by (apply Qle_shift_div_l; lra). lra.
Qed.

(** One running frame with thrust held and no wall collision. *)
Lemma thrust_frame (dt : Q) (random : nat -> Q) (w : World) :
  phase w = RUNNING ->
  thrust w = true ->
  0 <= dt ->
  playerVelocity (gameState w) <= 0.06 ->
  hitsWall (fst (playerMovement dt w)) = false ->
  let w' := fst (updateGame dt random w) in
  playerVelocity (gameState w) <= playerVelocity (gameState w')
  /\ (0.06 <= playerVelocity (gameState w) + 0.002 * (dt / 16.67) ->
      playerVelocity (gameState w') == 0.06).
Proof.
  intros Hp Ht Hdt Hv Hw w'. subst w'. rewrite updateGame_eq, Hp.
  rewrite simulate_gameState. cbn [playerVelocity].
  rewrite wallCollision_miss by exact Hw.
  rewrite playerMovement_eq. cbn [fst gameState upd set_gameState
    playerVelocity set_playerY set_playerVelocity].
  unfold velocityAfter. rewrite Ht.
  pose proof (step_nonneg dt Hdt) as Hs.
  unfold Math.max, Math.min.
  destruct (Qlt_le_dec (playerVelocity (gameState w) + 0.002 * (dt / 16.67))
                       0.06).
  - destruct (Qlt_le_dec (-0.06) _); split; intros; lra.
  - destruct (Qlt_le_dec (-0.06) 0.06); split; intros; lra.
Qed.

Lemma updateGame_velocity_cap (dt : Q) (random : nat -> Q) (w : World) :
  playerVelocity (gameState w) <= 0.06 ->
  playerVelocity (gameState (fst (updateGame dt random w))) <= 0.06.
Proof.
  intros Hv. rewrite updateGame_eq. destruct (phase w); try exact Hv.
  rewrite simulate_gameState. cbn [playerVelocity]. apply afterWall_bounds.
Qed.

Lemma updateGame_keys (dt : Q) (random : nat -> Q) (w : World) :
  keys (fst (updateGame dt random w)) = keys w.
Proof.
  rewrite updateGame_eq. destruct (phase w); try reflexivity.
  apply simulate_keys.
Qed.

(** Over consecutive frames with thrust held, non-negative frame times and
    no wall collision, a velocity of at most 0.06 never decreases and stays
    at most 0.06. *)
Lemma velocity_rises_from
    (fs : list (Q * (nat -> Q))) (w : World) :
  thrust w = true ->
  playerVelocity (gameState w) <= 0.06 ->
  wallFree fs w ->
  let vs := map (fun w => playerVelocity (gameState w))
                (w :: playFrames fs w) in
  nonDecreasing vs /\ Forall (fun v => v <= 0.06) vs.
Proof.
  revert w. induction fs as [|[dt random] fs IH]; intros w Ht Hv Hc vs; subst vs.
  - split; [exact I|]. apply Forall_cons_2; [exact Hv|apply Forall_nil_2].
  - destruct Hc as (Hdt & Hw & Hc).
    set (w' := fst (updateGame dt random w)) in *.
    assert (Ht' : thrust w' = true).
    { unfold thrust, w'. rewrite updateGame_keys. exact Ht. }
    assert (Hv' : playerVelocity (gameState w') <= 0.06)
      by apply updateGame_velocity_cap, Hv.
    destruct (IH w' Ht' Hv' Hc) as [Hn Hf].
    split.
    + change (playerVelocity (gameState w) <= playerVelocity (gameState w')
              /\ nonDecreasing
                   (map (fun w => playerVelocity (gameState w))
                        (w' :: playFrames fs w'))).
      split; [|exact Hn].
      destruct (phase w) eqn:Hp.
      * unfold w'. rewrite updateGame_eq, Hp. apply Qle_refl.
      * apply thrust_frame; auto.
      * unfold w'. rewrite updateGame_eq, Hp. apply Qle_refl.
    + apply Forall_cons_2; [exact Hv|exact Hf].
Qed.

(** What lies before the index being visited is out of the loop's reach. *)
Lemma callback_keeps_front (dt : Q) (o : Obstacle.t) (k i : nat) (w : World) :
  (i < k)%nat ->
  obstacles (fst (callback dt o k w)) !! i = obstacles w !! i.
Proof.
  intros Hi.
  unfold callback, splice1, seq, ifThenElse, assign, call, skip.
  cbn [fst snd].
  repeat match goal with
  | |- context [if ?c then _ else _] => destruct c
  end; cbn [fst snd obstacles set_obstacles upd set_gameState];
  rewrite ?list_lookup_delete_lt by exact Hi;
  apply list_lookup_insert_ne; lia.
Qed.

Lemma forEachFrom_keeps_front (dt : Q) (n k i : nat) (w : World) :
  (i < k)%nat ->
  obstacles (fst (forEachFrom n k (callback dt) w)) !! i = obstacles w !! i.
Proof.
  revert k w. induction n as [|n IH]; intros k w Hi; cbn [forEachFrom].
  - reflexivity.
  - rewrite fst_seq, IH by lia.
    destruct (obstacles w !! k); [apply callback_keeps_front, Hi|reflexivity].
Qed.

(** The two tests of the callback read the offset and the camera only. *)
Lemma collides_reads (o : Obstacle.t) (w1 w2 : World) :
  playerY (gameState w1) = playerY (gameState w2)
  /\ c2 (cameraPos w1) = c2 (cameraPos w2) ->
  collides o w1 = collides o w2.
Proof. intros [H1 H2]. unfold collides. rewrite H1, H2. reflexivity. Qed.

Lemma behindCamera_reads (o : Obstacle.t) (w1 w2 : World) :
  c2 (cameraPos w1) = c2 (cameraPos w2) ->
  behindCamera o w1 = behindCamera o w2.
Proof. intros H. unfold behindCamera. rewrite H. reflexivity. Qed.

Lemma fst_forEachFrom_S (n k : nat) (f : Obstacle.t -> nat -> Stmt)
    (w : World) :
  fst (forEachFrom (S n) k f w) =
  fst (forEachFrom n (S k) f
         (match obstacles w !! k with
          | Some kValue => fst (f kValue k w)
          | None => w
          end)).
Proof. cbn [forEachFrom]. rewrite fst_seq. destruct (_ !! _); reflexivity. Qed.

(** Whenever the callback removes the obstacle at index 0, by collision or
    by pruning, the obstacle that followed it ends the loop at index 0 as
    it was: the loop has not visited it. *)
Lemma removal_skips_successor
    (dt : Q) (w : World) (o1 o2 : Obstacle.t) (rest : list Obstacle.t) :
  obstacles w = o1 :: o2 :: rest ->
  xorb (collides o1 w) (behindCamera o1 w) = true ->
  obstacles (fst (updateObstacles dt w)) !! 0%nat = Some o2.
Proof.
  intros Ho Hx. unfold updateObstacles, forEach. rewrite Ho.
  cbn [length]. rewrite fst_forEachFrom_S, Ho. cbn [lookup list_lookup].
  rewrite forEachFrom_keeps_front by lia.
  unfold callback, splice1, seq, ifThenElse, assign, call, skip.
  cbn [fst snd].
  rewrite (collides_reads o1 (set_obstacles _ w) w) by (split; reflexivity).
  destruct (collides o1 w) eqn:Hc; cbn [fst snd];
    match goal with |- context [behindCamera o1 ?x] =>
      rewrite (behindCamera_reads o1 x w) by reflexivity end;
    destruct (behindCamera o1 w); try discriminate;
    cbn [fst snd obstacles set_obstacles upd set_gameState];
    rewrite Ho; reflexivity.
Qed.

(** ** The claims *)

(** C1.  In a running frame whose integrated offset leaves [-1.8, 1.8]:
    the wall block takes 10 from [life], not below 0 (the obstacle loop of
    the same frame may take more); the frame ends with the velocity at
    0.06 away from the wall that was hit, whatever the speed of arrival,
    and with the offset clamped into [-1.8, 1.8]; the page is asked for the
    damage flash and the wall sound first of all. *)
Theorem wall_collision_resolution
    (dt : Q) (random : nat -> Q) (w : World) :
  phase w = RUNNING ->
  let y1 := playerY (gameState (fst (playerMovement dt w))) in
  1.8 < y1 \/ y1 < -1.8 ->
  let r := updateGame dt random w in
  life (gameState (fst (wallCollision (fst (playerMovement dt w)))))
    = Z.max 0 (life (gameState w) - 10)
  /\ life (gameState (fst r))
     = applyDamages (damages (obstacleEffects dt random w))
                    (Z.max 0 (life (gameState w) - 10))
  /\ (0 <= life (gameState (fst r)) <= Z.max 0 (life (gameState w) - 10))%Z
  /\ playerVelocity (gameState (fst r)) == - sign y1 * 0.06
  /\ playerY (gameState (fst r)) = Math.max (-1.8) (Math.min 1.8 y1)
  /\ -1.8 <= playerY (gameState (fst r)) <= 1.8
  /\ exists rest,
       snd r = showDamageFlash :: playCollisionSound "wall" :: rest.
Proof.
  intros Hp y1 Hy r. subst r. rewrite updateGame_eq, Hp.
  unfold y1 in *. rewrite offsetAfter_eq in *.
  destruct (afterWall_cases dt w) as [(_ & He & Hl & Hv & Hy')|(Hin & _)];
    [|destruct Hy; lra].
  rewrite simulate_gameState, snd_simulate.
  cbn [life playerY playerVelocity]. rewrite He, Hv, Hy'.
  unfold lifeAfter, lifeAfterWall. rewrite Hl.
  split; [reflexivity|]. split; [reflexivity|]. split; [|split; [|split; [|split]]].
  - split.
    + apply applyDamages_nonneg. lia.
    + apply applyDamages_le; [apply damages_nonneg|lia].
  - unfold sign.
    destruct (Qlt_le_dec 0 (offsetAfter dt w)); [lra|].
    destruct (Qlt_le_dec (offsetAfter dt w) 0); [lra|].
    destruct Hy; lra.
  - reflexivity.
  - apply clamp_bounds. lra.
  - eexists. reflexivity.
Qed.

(** At the upper wall with full speed and thrust held, a frame of 16.67 ms
    carries the offset to 1.86. *)
Lemma wall_collision_resolution_witness :
  phase (atUpperWall 100) = RUNNING
  /\ 1.8 < playerY (gameState (fst (playerMovement 16.67 (atUpperWall 100))))
  /\ playerY (gameState (fst (updateGame 16.67 quiet (atUpperWall 100))))
     = Math.max (-1.8) (Math.min 1.8
         (playerY (gameState (fst (playerMovement 16.67 (atUpperWall 100)))))).
Proof.
  assert (H1 : phase (atUpperWall 100) = RUNNING) by reflexivity.
  assert (H2 : 1.8 < playerY (gameState
                        (fst (playerMovement 16.67 (atUpperWall 100)))))
    by (vm_compute; reflexivity).
  split; [exact H1|]. split; [exact H2|].
  apply (wall_collision_resolution 16.67 quiet (atUpperWall 100) H1
           (or_introl H2)).
Defined.

(** C2.  In every world reachable from page load, [life] lies between 0 and
    100, and [life] is 0 exactly when the phase is GAME_OVER: a frame that
    brings [life] to 0 ends in GAME_OVER, and GAME_OVER is never entered
    with [life] above 0. *)
Theorem life_bounds_and_game_over (events : list Event) :
  (0 <= life (gameState (run events)) <= 100)%Z
  /\ (life (gameState (run events)) = 0%Z <-> phase (run events) = GAME_OVER).
Proof.
  destruct (Inv_run events) as [Hl _ Ho _ _ _]. split; assumption.
Qed.

(** C3.  The player offset lies in [-1.8, 1.8] in every reachable world, and
    at the end of a running frame from any world whatever; it already does
    once the wall block of that frame has run. *)
Theorem offset_within_tunnel :
  (forall events : list Event,
     -1.8 <= playerY (gameState (run events)) <= 1.8)
  /\ (forall (dt : Q) (random : nat -> Q) (w : World),
        -1.8 <= playerY (gameState (fst (simulate dt random w))) <= 1.8)
  /\ (forall (dt : Q) (w : World),
        -1.8 <= playerY (gameState (fst (kinematics dt w))) <= 1.8).
Proof.
  split; [|split].
  - intros events. apply (inv_offset _ (Inv_run events)).
  - intros dt random w. rewrite simulate_gameState. cbn [playerY].
    apply afterWall_bounds.
  - intros dt w. rewrite kinematics_gameState. cbn [playerY set_time].
    apply afterWall_bounds.
Qed.

(** C4.  [score] is [floor (cameraPos[2] * 10)] in every reachable world and
    at the end of a running frame from any world; every score the frame
    shows to the page ([showGameOver], [updateUI]) is that same number. *)
Theorem score_is_floor_of_distance :
  (forall events : list Event,
     score (gameState (run events))
     = Math.floor (c2 (cameraPos (run events)) * 10))
  /\ (forall (dt : Q) (random : nat -> Q) (w : World),
        let r := simulate dt random w in
        score (gameState (fst r)) = Math.floor (c2 (cameraPos (fst r)) * 10)
        /\ Forall (fun e => forall s, reportedScore e = Some s ->
                     s = Math.floor (c2 (cameraPos (fst r)) * 10))
                  (snd r)).
Proof.
  split.
  - intros events. apply (inv_score _ (Inv_run events)).
  - intros dt random w r. subst r.
    assert (E : score (gameState (fst (simulate dt random w)))
                = Math.floor (c2 (cameraPos (fst (simulate dt random w))) * 10)).
    { rewrite simulate_cameraPos, simulate_gameState. reflexivity. }
    split; [exact E|].
    rewrite <- E. apply simulate_reportedScore.
Qed.

(** C5 fails on the code.  With [older] and [younger] in the array, the
    frame removes [older] at index 0 and never visits [younger]: it is
    neither rotated nor tested, although its rotation speed is not zero and
    it is within collision distance; [life] stays at 100.  The same frame
    with [younger] alone takes 20 from [life] and removes it. *)
Theorem removal_skips_the_next_obstacle :
  let r := updateGame 16.67 quiet (flying [older; younger]) in
  let alone := updateGame 16.67 quiet (flying [younger]) in
  obstacles (atLoop 16.67 quiet (flying [older; younger])) = [older; younger]
  /\ collides younger (atLoop 16.67 quiet (flying [older; younger])) = true
  /\ ~ Obstacle.rotationX (rotate 16.67 younger)
       == Obstacle.rotationX younger
  /\ obstacles (fst r) = [younger]
  /\ life (gameState (fst r)) = 100%Z
  /\ snd r = [updateUI 100 450]
  /\ obstacles (fst alone) = []
  /\ life (gameState (fst alone)) = 80%Z
  /\ snd alone = [showDamageFlash; playCollisionSound "obstacle";
                  updateUI 80 450].
Proof.
  cbv zeta.
  split; [vm_compute; reflexivity|].
  split; [vm_compute; reflexivity|].
  split; [vm_compute; discriminate|].
  repeat (split; [vm_compute; reflexivity|]).
  vm_compute; reflexivity.
Qed.

(** The skip, reached from page load: after [stallEvents], a frame after a
    stall of 9.8 s brings the camera to where the first obstacle is pruned
    while the second is on the craft; the second is passed over and only
    the wall takes from [life]. *)
Lemma removal_skips_after_page_load :
  let w := run stallEvents in
  let dt := 16.67 * 590 in
  let r := updateGame dt quiet w in
  phase w = RUNNING
  /\ length (obstacles (atLoop dt quiet w)) = 2%nat
  /\ map (fun o => behindCamera o (atLoop dt quiet w))
         (obstacles (atLoop dt quiet w)) = [true; false]
  /\ map (fun o => collides o (atLoop dt quiet w))
         (obstacles (atLoop dt quiet w)) = [false; true]
  /\ obstacles (fst r) = drop 1 (obstacles w)
  /\ life (gameState w) = 90%Z
  /\ life (gameState (fst r)) = 80%Z
  /\ snd r = [showDamageFlash; playCollisionSound "wall"; updateUI 80 451].
Proof.
  cbv zeta.
  repeat (split; [vm_compute; reflexivity|]).
  vm_compute; reflexivity.
Qed.

(** C6, as stated, fails: in the world after [bounceEvents] the game is
    running, thrust is held and the velocity is 0.03; the next frame
    accelerates to 0.04, below the cap, carries the craft to 1.85, through
    the upper wall, and leaves the velocity at -0.06. *)
Lemma thrust_into_wall_counterexample :
  let w := run bounceEvents in
  let w' := fst (updateGame 83.35 quiet w) in
  phase w = RUNNING
  /\ thrust w = true
  /\ playerVelocity (gameState w) == 0.03
  /\ playerVelocity (gameState (fst (playerMovement 83.35 w))) == 0.04
  /\ playerY (gameState (fst (playerMovement 83.35 w))) == 1.85
  /\ playerVelocity (gameState w') == -0.06
  /\ ~ playerVelocity (gameState w) <= playerVelocity (gameState w').
Proof.
  cbv zeta.
  split; [vm_compute; reflexivity|].
  split; [vm_compute; reflexivity|].
  split; [vm_compute; reflexivity|].
  split; [vm_compute; reflexivity|].
  split; [vm_compute; reflexivity|].
  split; [vm_compute; reflexivity|].
  apply Qlt_not_le. vm_compute. reflexivity.
Qed.

(** C6, amended.  From any reachable world, over consecutive frames with
    thrust held, non-negative frame times and no wall collision: the
    velocity never decreases from one frame to the next and never exceeds
    0.06. *)
Theorem velocity_rises_under_thrust
    (events : list Event) (fs : list (Q * (nat -> Q))) :
  let w := run events in
  thrust w = true ->
  wallFree fs w ->
  let vs := map (fun w => playerVelocity (gameState w))
                (w :: playFrames fs w) in
  nonDecreasing vs /\ Forall (fun v => v <= 0.06) vs.
Proof.
  intros w Ht Hc. apply velocity_rises_from; try assumption.
  apply (inv_velocity _ (Inv_run events)).
Qed.

(** Space pressed on the title screen, then three frames at 60 fps. *)
Lemma velocity_rises_under_thrust_witness :
  let w := run [keydown "Space"] in
  let fs := [(16.67, quiet); (16.67, quiet); (16.67, quiet)] in
  thrust w = true
  /\ wallFree fs w
  /\ nonDecreasing (map (fun w => playerVelocity (gameState w))
                        (w :: playFrames fs w)).
Proof.
  cbv zeta.
  set (fs := [(16.67, quiet); (16.67, quiet); (16.67, quiet)]).
  assert (H1 : thrust (run [keydown "Space"]) = true)
    by (vm_compute; reflexivity).
  assert (H3 : wallFree fs (run [keydown "Space"])).
  { cbn [wallFree fs].
    split; [vm_compute; discriminate|].
    split; [intros _; vm_compute; reflexivity|].
    split; [vm_compute; discriminate|].
    split; [intros _; vm_compute; reflexivity|].
    split; [vm_compute; discriminate|].
    split; [intros _; vm_compute; reflexivity|].
    exact I. }
  split; [exact H1|]. split; [exact H3|].
  exact (proj1 (velocity_rises_under_thrust [keydown "Space"] fs H1 H3)).
Defined.

(** C7.  A frame in TITLE or GAME_OVER returns the world as it found it (in
    TITLE it only asks the page to show the title screen); the simulation
    blocks run in RUNNING and only there. *)
Theorem frame_outside_running_is_identity
    (dt : Q) (random : nat -> Q) (w : World) :
  match phase w with
  | TITLE => updateGame dt random w = (w, [showTitleScreen])
  | GAME_OVER => updateGame dt random w = (w, [])
  | RUNNING => updateGame dt random w = simulate dt random w
  end.
Proof. rewrite updateGame_eq. destruct (phase w); reflexivity. Qed.

(** C8.  [restartGame], from any world, puts every field back to its
    initial value and the phase to TITLE; a second call returns the same
    world, and the result does not depend on the world it was called in
    beyond the held keys. *)
Theorem restartGame_resets (w : World) :
  let w' := fst (restartGame w) in
  (life (gameState w') = 100%Z
   /\ score (gameState w') = 0%Z
   /\ speed (gameState w') = 0.02
   /\ playerY (gameState w') = 0
   /\ playerVelocity (gameState w') = 0
   /\ c2 (cameraPos w') = 0
   /\ time (gameState w') = 0
   /\ obstacles w' = []
   /\ phase w' = TITLE)
  /\ fst (restartGame w') = w'
  /\ (forall w0 : World,
        let w0' := fst (restartGame w0) in
        gameState w0' = gameState w' /\ cameraPos w0' = cameraPos w'
        /\ obstacles w0' = obstacles w').
Proof. cbv zeta. repeat split. Qed.

(** C9.  A frame never raises [life] in a reachable world: the new value is
    the old one after [Math.max(0, life - d)] for each collision of the
    frame in turn, [d] being 10 for a wall and 20 for an obstacle. *)
Theorem life_never_increases
    (events : list Event) (dt : Q) (random : nat -> Q) :
  let w := run events in
  let r := updateGame dt random w in
  (life (gameState (fst r)) <= life (gameState w))%Z
  /\ life (gameState (fst r))
     = applyDamages (damages (snd r)) (life (gameState w))
  /\ Forall (fun d => d = 10%Z \/ d = 20%Z) (damages (snd r)).
Proof.
  intros w r. subst r.
  assert (Hd : forall es, Forall (fun d => d = 10%Z \/ d = 20%Z) (damages es)).
  { induction es as [|e es IH]; [constructor|].
    change (e :: es) with ([e] ++ es). rewrite damages_app.
    apply Forall_app. split; [|exact IH].
    unfold damages. simpl. rewrite app_nil_r.
    destruct e; simpl; try apply Forall_nil_2.
    destruct (String.eqb type "wall");
      [apply Forall_cons_2; [auto|apply Forall_nil_2]|].
    destruct (String.eqb type "obstacle");
      [apply Forall_cons_2; [auto|]|]; apply Forall_nil_2. }
  split; [|split; [|apply Hd]].
  - rewrite updateGame_eq. destruct (phase w); try reflexivity.
    rewrite simulate_gameState. cbn [life].
    apply lifeAfter_bounds, (inv_life _ (Inv_run events)).
  - rewrite updateGame_eq. destruct (phase w); try reflexivity.
    apply simulate_damages.
Qed.

(** C10.  When the wall block of a running frame brings [life] to 0, the
    frame still moves the camera, recomputes score and speed, holds the
    spawn trial and runs the obstacle loop; only then is the game declared
    over, with the score of the advanced camera. *)
Theorem game_over_closes_a_full_frame
    (dt : Q) (random : nat -> Q) (w : World) :
  phase w = RUNNING ->
  let y1 := playerY (gameState (fst (playerMovement dt w))) in
  1.8 < y1 \/ y1 < -1.8 ->
  (life (gameState w) <= 10)%Z ->
  let r := updateGame dt random w in
  let c := c2 (cameraPos w) + speed (gameState w) * (dt / 16.67) in
  let wp := fst (progress dt random (fst (kinematics dt w))) in
  life (gameState (fst (wallCollision (fst (playerMovement dt w))))) = 0%Z
  /\ c2 (cameraPos (fst r)) = c
  /\ score (gameState (fst r)) = Math.floor (c * 10)
  /\ speed (gameState (fst r)) = 0.02 + (time (gameState w) + dt) * 0.00001
  /\ obstacles wp =
       (if Qlt_le_dec (random 0%nat)
             (0.01 * (1 + inject_Z (Math.floor (c * 10)) / 1000))
        then obstacles w
             ++ [spawned random (set_cameraPos (mkVec3 0 0 c) w)]
        else obstacles w)
  /\ obstacles (fst r) = obstacles (fst (updateObstacles dt wp))
  /\ life (gameState (fst r)) = 0%Z
  /\ phase (fst r) = GAME_OVER
  /\ snd r = [showDamageFlash; playCollisionSound "wall"]
             ++ snd (updateObstacles dt wp)
             ++ [showGameOver (Math.floor (c * 10));
                 updateUI 0 (Math.floor (c * 10))].
Proof.
  intros Hp y1 Hy Hlife r c wp. subst r. rewrite updateGame_eq, Hp.
  unfold y1 in *. rewrite offsetAfter_eq in *.
  destruct (afterWall_cases dt w) as [(_ & He & Hl & Hv & Hy')|(Hin & _)];
    [|destruct Hy; lra].
  assert (Hl0 : lifeAfterWall dt w = 0%Z).
  { unfold lifeAfterWall. rewrite Hl. lia. }
  assert (Hl1 : lifeAfter dt random w = 0%Z).
  { assert (H0 : (0 <= lifeAfterWall dt w)%Z) by lia.
    pose proof (applyDamages_nonneg
                  (damages (obstacleEffects dt random w)) _ H0) as Ha.
    pose proof (applyDamages_le (damages (obstacleEffects dt random w)) _
                  (damages_nonneg _) H0) as Hb.
    unfold lifeAfter. lia. }
  assert (Hph : showTitle (gameState w) = false).
  { unfold phase in Hp. destruct (showTitle (gameState w)); [discriminate|].
    reflexivity. }
  pose proof (simulate_gameState dt random w) as Hg. cbv zeta in Hg.
  rewrite Hl1 in Hg. cbn [Z.leb Z.compare] in Hg.
  split; [exact Hl0|].
  split; [rewrite simulate_cameraPos; reflexivity|].
  split; [rewrite Hg; reflexivity|].
  split; [rewrite Hg; reflexivity|].
  split.
  { unfold wp. rewrite progress_obstacles.
    rewrite kinematics_cameraPos, kinematics_obstacles, kinematics_gameState.
    cbn [speed set_time].
    assert (Hs : speed (gameState (fst (wallCollision (fst (playerMovement dt w)))))
                 = speed (gameState w)).
    { rewrite playerMovement_eq. cbn [fst].
      case_wall; reflexivity. }
    rewrite Hs. fold c.
    destruct (Qlt_le_dec (random 0%nat) _); reflexivity. }
  split; [apply simulate_obstacles|].
  split; [rewrite Hg; reflexivity|].
  split; [unfold phase; rewrite Hg; cbn [showTitle gameRunning];
          rewrite Hph; reflexivity|].
  rewrite snd_simulate. cbv zeta. rewrite He.
  pose proof (score_before_checkGameOver dt random w) as Hsc.
  cbv zeta in Hsc. fold wp in Hsc.
  rewrite <- (fst_simulate dt random w). fold wp.
  rewrite checkGameOver_eq.
  destruct (updateObstacles_damagedBy dt wp) as (Hgo & _ & _).
  assert (Hlo : life (gameState (fst (updateObstacles dt wp))) = 0%Z).
  { rewrite Hgo. cbn [life set_life]. unfold wp at 2.
    rewrite progress_gameState. cbn [life set_speed set_score].
    rewrite kinematics_gameState. exact Hl1. }
  rewrite Hlo. cbn [Z.leb Z.compare]. rewrite Hsc, Hg.
  reflexivity.
Qed.

(** The same frame with 10 of [life] left. *)
Lemma game_over_closes_a_full_frame_witness :
  phase (atUpperWall 10) = RUNNING
  /\ 1.8 < playerY (gameState (fst (playerMovement 16.67 (atUpperWall 10))))
  /\ (life (gameState (atUpperWall 10)) <= 10)%Z
  /\ phase (fst (updateGame 16.67 quiet (atUpperWall 10))) = GAME_OVER.
Proof.
  assert (H1 : phase (atUpperWall 10) = RUNNING) by reflexivity.
  assert (H2 : 1.8 < playerY (gameState
                        (fst (playerMovement 16.67 (atUpperWall 10)))))
    by (vm_compute; reflexivity).
  assert (H3 : (life (gameState (atUpperWall 10)) <= 10)%Z)
    by (vm_compute; discriminate).
  split; [exact H1|]. split; [exact H2|]. split; [exact H3|].
  apply (game_over_closes_a_full_frame 16.67 quiet (atUpperWall 10) H1
           (or_introl H2) H3).
Defined.

(** ** Further properties of the simulation *)

(** *** Induction over the events since page load *)

Lemma startGame_fields (w : World) :
  gameState (fst (startGame w))
  = set_gameRunning true (set_showTitle false (gameState w))
  /\ keys (fst (startGame w)) = keys w
  /\ cameraPos (fst (startGame w)) = cameraPos w
  /\ obstacles (fst (startGame w)) = obstacles w.
Proof. repeat split. Qed.

(** A property of worlds holds after every sequence of events whose frame
    times satisfy [F], as soon as it holds at page load, does not read
    [keys] nor the two flags, and is kept by [restartGame] and by a running
    frame with such a frame time. *)
Lemma run_induction (F : Q -> (nat -> Q) -> Prop) (P : World -> Prop) :
  P initialWorld ->
  (forall w k, P w -> P (set_keys k w)) ->
  (forall w, P w -> P (fst (startGame w))) ->
  (forall w, P (fst (restartGame w))) ->
  (forall dt random w,
     F dt random -> phase w = RUNNING -> P w ->
     P (fst (simulate dt random w))) ->
  forall events,
    Forall (fun e => match e with
                     | animationFrame dt random => F dt random
                     | _ => True
                     end) events ->
    P (run events).
Proof.
  intros H0 Hk Hs Hr Hf events.
  induction events as [|e events IH] using rev_ind; intros HF.
  - exact H0.
  - apply Forall_app in HF. destruct HF as [HF He].
    apply Forall_cons_1 in He. destruct He as [He _].
    specialize (IH HF). rewrite run_snoc.
    assert (Hst : forall w, P w -> P (fst (startIfTitle w))).
    { intros w Hw. unfold startIfTitle, ifThenElse.
      destruct (showTitle (gameState w)); [apply Hs, Hw|exact Hw]. }
    destruct e as [code|code|b| |b| | |dt random| ]; cbn [handle].
    + rewrite fst_seq. destruct (String.eqb code "Space").
      * apply Hst, Hk, IH.
      * apply Hk, IH.
    + apply Hk, IH.
    + destruct b; [exact IH|]. rewrite fst_seq. apply Hst, Hk, IH.
    + apply Hk, IH.
    + destruct b; [exact IH|]. rewrite fst_seq. apply Hst, Hk, IH.
    + apply Hk, IH.
    + apply Hk, IH.
    + rewrite updateGame_eq. destruct (phase (run events)) eqn:Hp.
      * exact IH.
      * apply Hf; assumption.
      * exact IH.
    + apply Hr.
Qed.

Lemma Forall_frames_True (events : list Event) :
  Forall (fun e => match e with
                   | animationFrame dt _ => True
                   | _ => True
                   end) events.
Proof. apply Forall_forall. intros e _. destruct e; exact I. Qed.

Lemma Follows_run (events : list Event) : Follows (run events).
Proof.
  apply (run_induction (fun _ _ => True)); try apply Forall_frames_True.
  - split; reflexivity.
  - intros w k [? ? ?]. split; assumption.
  - intros w [? ? ?]. split; assumption.
  - intros w. split; reflexivity.
  - intros dt random w _ _ [H0 H1 Hs]. split.
    + rewrite simulate_cameraPos. exact H0.
    + rewrite simulate_cameraPos. reflexivity.
    + rewrite simulate_gameState. cbn [speed time]. reflexivity.
Qed.

Lemma ratio_nonneg (dt : Q) : 0 <= dt -> 0 <= dt / 16.67.
Proof. intros H. apply Qle_shift_div_l; lra. Qed.

Lemma floor_nonneg (a : Q) : 0 <= a -> (0 <= Math.floor a)%Z.
Proof.
  intros H. unfold Math.floor.
  change 0%Z with (Qfloor 0). apply Qfloor_resp_le, H.
Qed.

Lemma Forward_simulate (dt : Q) (random : nat -> Q) (w : World) :
  0 <= dt -> Forward w -> Forward (fst (simulate dt random w)).
Proof.
  intros Hdt [Ht Hs Hc Hsc].
  pose proof (ratio_nonneg dt Hdt) as Hu.
  assert (Hc' : 0 <= c2 (cameraPos w) + speed (gameState w) * (dt / 16.67))
    by nra.
  split; rewrite ?simulate_cameraPos, ?simulate_gameState;
    cbn [time speed score c2].
  - lra.
  - lra.
  - exact Hc'.
  - apply floor_nonneg. lra.
Qed.

Lemma Forward_run (events : list Event) :
  nonnegFrames events -> Forward (run events).
Proof.
  apply (run_induction (fun dt _ => 0 <= dt)).
  - split; simpl; try lra; lia.
  - intros w k [? ? ? ?]. split; assumption.
  - intros w [? ? ? ?]. split; assumption.
  - intros w. split; simpl; try lra; lia.
  - intros dt random w Hdt _ H. apply Forward_simulate; assumption.
Qed.

(** *** The claims' invariants, two-sided and beyond *)

(** X1.  In every world reachable from page load the velocity lies between
    -0.06 and 0.06. *)
Theorem velocity_within_cap (events : list Event) :
  -0.06 <= playerVelocity (gameState (run events)) <= 0.06.
Proof. apply (inv_velocity _ (Inv_run events)). Qed.

(** X2.  In every reachable world the camera is on the axis sideways and at
    the height of the craft: [cameraPos[0]] is 0 and [cameraPos[1]] is
    [playerY]. *)
Theorem camera_follows_the_craft (events : list Event) :
  c0 (cameraPos (run events)) = 0
  /\ c1 (cameraPos (run events)) = playerY (gameState (run events)).
Proof. destruct (Follows_run events) as [H0 H1 _]. split; assumption. Qed.

(** X3.  In every reachable world [speed] is 0.02 plus 0.00001 per
    millisecond of [time]. *)
Theorem speed_is_linear_in_time (events : list Event) :
  speed (gameState (run events))
  == 0.02 + time (gameState (run events)) * 0.00001.
Proof. apply (follows_speed _ (Follows_run events)). Qed.

(** X4.  After events whose frame times are all non-negative, [time],
    [speed], the camera distance and [score] are non-negative (speed at
    least 0.02), and a further frame with a non-negative frame time lowers
    none of them. *)
Theorem progress_never_goes_back
    (events : list Event) (dt : Q) (random : nat -> Q) :
  nonnegFrames events ->
  0 <= dt ->
  let w := run events in
  let w' := fst (updateGame dt random w) in
  (0 <= time (gameState w) /\ 0.02 <= speed (gameState w)
   /\ 0 <= c2 (cameraPos w) /\ (0 <= score (gameState w))%Z)
  /\ time (gameState w) <= time (gameState w')
  /\ speed (gameState w) <= speed (gameState w')
  /\ c2 (cameraPos w) <= c2 (cameraPos w')
  /\ (score (gameState w) <= score (gameState w'))%Z.
Proof.
  intros Hev Hdt w w'. subst w'.
  destruct (Forward_run events Hev) as [Ht Hs Hc Hsc]. fold w in Ht, Hs, Hc, Hsc.
  pose proof (follows_speed _ (Follows_run events)) as Hsp. fold w in Hsp.
  pose proof (inv_score _ (Inv_run events)) as Hscore. fold w in Hscore.
  split; [repeat split; assumption|].
  rewrite updateGame_eq. destruct (phase w).
  - split; [apply Qle_refl|]. split; [apply Qle_refl|].
    split; [apply Qle_refl|apply Z.le_refl].
  - pose proof (ratio_nonneg dt Hdt) as Hu.
    assert (Hc' : c2 (cameraPos w)
                  <= c2 (cameraPos w) + speed (gameState w) * (dt / 16.67))
      by nra.
    rewrite simulate_cameraPos, simulate_gameState.
    cbn [time speed score c2].
    split; [lra|]. split; [lra|]. split; [exact Hc'|].
    rewrite Hscore. apply Qfloor_resp_le. lra.
  - split; [apply Qle_refl|]. split; [apply Qle_refl|].
    split; [apply Qle_refl|apply Z.le_refl].
Qed.

Lemma progress_never_goes_back_witness :
  let events := [keydown "Space"; animationFrame 16.67 quiet] in
  nonnegFrames events
  /\ 0 <= 33.34
  /\ c2 (cameraPos (run events))
     <= c2 (cameraPos (fst (updateGame 33.34 quiet (run events)))).
Proof.
  cbv zeta.
  set (events := [keydown "Space"; animationFrame 16.67 quiet]).
  assert (H1 : nonnegFrames events).
  { apply Forall_cons_2; [exact I|].
    apply Forall_cons_2; [vm_compute; discriminate|apply Forall_nil_2]. }
  assert (H2 : 0 <= 33.34) by (vm_compute; discriminate).
  split; [exact H1|]. split; [exact H2|].
  exact (proj1 (proj2 (proj2 (proj2
           (progress_never_goes_back events 33.34 quiet H1 H2))))).
Defined.

(** *** The frame driver *)





(** *** Difficulty and the spawner *)

Lemma getDifficultyMultiplier_le (w1 w2 : World) :
  (score (gameState w1) <= score (gameState w2))%Z ->
  getDifficultyMultiplier w1 <= getDifficultyMultiplier w2.
Proof.
  intros H. unfold getDifficultyMultiplier. cbv zeta.
  rewrite Zle_Qle in H.
  assert (H' : inject_Z (score (gameState w1)) / 1000
               <= inject_Z (score (gameState w2)) / 1000).
  { apply Qmult_le_compat_r; [exact H|]. vm_compute. discriminate. }
  lra.
Qed.

(** X6.  The difficulty multiplier and the chance of a spawn grow with the
    score: with the same random draw, a spawn at a lower score is a spawn at
    a higher one; from a score of 99000 on, every draw below 1 spawns. *)
Theorem difficulty_grows_with_score
    (random : nat -> Q) (w1 w2 : World) :
  (score (gameState w1) <= score (gameState w2))%Z ->
  getDifficultyMultiplier w1 <= getDifficultyMultiplier w2
  /\ (spawnTrial random w1 = true -> spawnTrial random w2 = true)
  /\ ((99000 <= score (gameState w1))%Z -> random 0%nat < 1 ->
      spawnTrial random w1 = true).
Proof.
  intros H. pose proof (getDifficultyMultiplier_le w1 w2 H) as Hd.
  split; [exact Hd|]. split.
  - unfold spawnTrial. cbv zeta.
    destruct (Qlt_le_dec (random 0%nat) (0.01 * getDifficultyMultiplier w1));
      [|discriminate].
    destruct (Qlt_le_dec (random 0%nat) (0.01 * getDifficultyMultiplier w2));
      [reflexivity|lra].
  - intros Hs Hr. unfold spawnTrial, getDifficultyMultiplier. cbv zeta.
    rewrite Zle_Qle in Hs.
    assert (H' : inject_Z 99000 / 1000
                 <= inject_Z (score (gameState w1)) / 1000).
    { apply Qmult_le_compat_r; [exact Hs|]. vm_compute. discriminate. }
    assert (E : inject_Z 99000 / 1000 == 99) by (vm_compute; reflexivity).
    destruct (Qlt_le_dec (random 0%nat) _); [reflexivity|lra].
Qed.

Lemma difficulty_grows_with_score_witness :
  (score (gameState initialWorld) <= score (gameState (atUpperWall 100)))%Z
  /\ getDifficultyMultiplier initialWorld
     <= getDifficultyMultiplier (atUpperWall 100).
Proof.
  assert (H : (score (gameState initialWorld)
               <= score (gameState (atUpperWall 100)))%Z)
    by (vm_compute; discriminate).
  split; [exact H|].
  exact (proj1 (difficulty_grows_with_score quiet _ _ H)).
Defined.





(** *** The obstacle loop *)

Lemma placement_rotate (dt : Q) (o : Obstacle.t) :
  placement (rotate dt o) = placement o.
Proof. reflexivity. Qed.

Lemma callback_placements (dt : Q) (o : Obstacle.t) (k : nat) (w : World) :
  obstacles w !! k = Some o ->
  (placement <$> obstacles (fst (callback dt o k w)))
    `sublist_of` (placement <$> obstacles w).
Proof.
  intros Hk.
  assert (E : placement <$> <[k:=rotate dt o]> (obstacles w)
              = placement <$> obstacles w).
  { rewrite list_fmap_insert, placement_rotate.
    apply list_insert_id. rewrite list_lookup_fmap, Hk. reflexivity. }
  unfold callback, splice1, seq, ifThenElse, assign, call, skip.
  cbn [fst snd].
  repeat match goal with
  | |- context [if ?c then _ else _] => destruct c
  end; cbn [fst snd obstacles set_obstacles upd set_gameState];
  rewrite ?list_fmap_delete, E;
  repeat (etransitivity; [apply sublist_delete|]); reflexivity.
Qed.

Lemma forEachFrom_placements (dt : Q) (n k : nat) (w : World) :
  (placement <$> obstacles (fst (forEachFrom n k (callback dt) w)))
    `sublist_of` (placement <$> obstacles w).
Proof.
  revert k w. induction n as [|n IH]; intros k w.
  - reflexivity.
  - rewrite fst_forEachFrom_S. etransitivity; [apply IH|].
    destruct (obstacles w !! k) as [o|] eqn:Hk; [|reflexivity].
    apply callback_placements, Hk.
Qed.

(** X9.  The obstacle loop only removes: the obstacles it leaves are, in
    the same order, obstacles it found, each at the position and with the
    angular velocity it had. *)
Theorem loop_only_removes (dt : Q) (w : World) :
  (placement <$> obstacles (fst (updateObstacles dt w)))
    `sublist_of` (placement <$> obstacles w).
Proof. apply forEachFrom_placements. Qed.

Lemma stays_reads (o : Obstacle.t) (w1 w2 : World) :
  playerY (gameState w1) = playerY (gameState w2) ->
  c2 (cameraPos w1) = c2 (cameraPos w2) ->
  stays w1 o -> stays w2 o.
Proof.
  intros Hy Hc [H1 H2]. split.
  - rewrite <- H1. symmetry. apply collides_reads. split; assumption.
  - rewrite <- H2. symmetry. apply behindCamera_reads, Hc.
Qed.

Lemma callback_stays (dt : Q) (o : Obstacle.t) (k : nat) (w : World) :
  stays w o ->
  callback dt o k w
  = (set_obstacles (<[k:=rotate dt o]> (obstacles w)) w, []).
Proof.
  intros [Hc Hb].
  unfold callback, splice1, seq, ifThenElse, assign, call, skip.
  cbn [fst snd].
  rewrite (collides_reads o (set_obstacles _ w) w) by (split; reflexivity).
  rewrite Hc. cbn [fst snd].
  rewrite (behindCamera_reads o (set_obstacles _ w) w) by reflexivity.
  rewrite Hb. reflexivity.
Qed.

Lemma set_obstacles_same (w : World) : set_obstacles (obstacles w) w = w.
Proof. destruct w; reflexivity. Qed.

Lemma forEachFrom_stays (dt : Q) (l : list Obstacle.t) (n k : nat) (w : World) :
  (n + k = length l)%nat ->
  obstacles w = (rotate dt <$> take k l) ++ drop k l ->
  Forall (stays w) l ->
  forEachFrom n k (callback dt) w = (set_obstacles (rotate dt <$> l) w, []).
Proof.
  revert k w. induction n as [|n IH]; intros k w Hn Ho Hs.
  - cbn [forEachFrom]. unfold skip.
    rewrite take_ge, drop_ge, app_nil_r in Ho by lia.
    rewrite <- Ho, set_obstacles_same. reflexivity.
  - assert (Hk : (k < length l)%nat) by lia.
    destruct (lookup_lt_is_Some_2 l k Hk) as [o Hlk].
    assert (Hwk : obstacles w !! k = Some o).
    { rewrite Ho, lookup_app_r by (rewrite length_fmap, length_take; lia).
      rewrite length_fmap, length_take_le by lia.
      rewrite lookup_drop. replace (k + (k - k))%nat with k by lia.
      exact Hlk. }
    cbn [forEachFrom]. unfold seq at 1. rewrite Hwk.
    rewrite (callback_stays dt o k w) by (eapply Forall_lookup_1; eassumption).
    cbn [fst snd app].
    rewrite (IH (S k)).
    + reflexivity.
    + lia.
    + cbn [obstacles set_obstacles]. rewrite Ho.
      replace k with (length (rotate dt <$> take k l) + 0)%nat at 1
        by (rewrite length_fmap, length_take_le; lia).
      rewrite insert_app_r. rewrite (drop_S l o k Hlk). cbn [insert list_insert].
      rewrite (take_S_r l k o Hlk), fmap_app. cbn [fmap list_fmap].
      rewrite <- app_assoc. reflexivity.
    + eapply Forall_impl; [exact Hs|]. intros o'. apply stays_reads; reflexivity.
Qed.

(** X10.  When no obstacle is within collision distance or behind the
    camera, the loop advances the rotation of every obstacle once and does
    nothing else: no obstacle is removed, [life] is untouched, the page is
    not called. *)
Theorem loop_without_removal_rotates_all (dt : Q) (w : World) :
  Forall (stays w) (obstacles w) ->
  updateObstacles dt w
  = (set_obstacles (rotate dt <$> obstacles w) w, []).
Proof.
  intros Hs. unfold updateObstacles, forEach.
  apply forEachFrom_stays; [lia|reflexivity|exact Hs].
Qed.

Lemma loop_without_removal_rotates_all_witness :
  let o := spawned quiet (flying []) in
  Forall (stays (flying [o; o])) (obstacles (flying [o; o]))
  /\ obstacles (fst (updateObstacles 16.67 (flying [o; o])))
     = [rotate 16.67 o; rotate 16.67 o].
Proof.
  cbv zeta. set (o := spawned quiet (flying [])).
  assert (H : Forall (stays (flying [o; o])) (obstacles (flying [o; o]))).
  { apply Forall_cons_2; [split; vm_compute; reflexivity|].
    apply Forall_cons_2; [split; vm_compute; reflexivity|apply Forall_nil_2]. }
  split; [exact H|].
  rewrite (loop_without_removal_rotates_all 16.67 _ H). reflexivity.
Defined.

Lemma length_delete_le {A} (l : list A) (i : nat) :
  (length (delete i l) <= length l)%nat.
Proof. apply sublist_length, sublist_delete. Qed.

Lemma callback_count (dt : Q) (o : Obstacle.t) (k : nat) (w : World) :
  obstacles w !! k = Some o ->
  (length (obstacles (fst (callback dt o k w)))
   + length (damages (snd (callback dt o k w)))
   <= length (obstacles w))%nat.
Proof.
  intros Hk.
  assert (Hlt : (k < length (obstacles w))%nat)
    by (apply lookup_lt_is_Some; eauto).
  assert (Hd : length (delete k (<[k:=rotate dt o]> (obstacles w)))
               = (length (obstacles w) - 1)%nat).
  { rewrite length_delete, length_insert; [reflexivity|].
    apply lookup_lt_is_Some. rewrite length_insert. exact Hlt. }
  unfold callback, splice1, seq, ifThenElse, assign, call, skip.
  cbn [fst snd].
  repeat match goal with
  | |- context [if ?c then _ else _] => destruct c
  end; cbn [fst snd obstacles set_obstacles upd set_gameState app];
  change (damages [showDamageFlash; playCollisionSound "obstacle"])
    with [20%Z];
  change (damages []) with (@nil Z); cbn [length].
  - pose proof (length_delete_le
                  (delete k (<[k:=rotate dt o]> (obstacles w))) k). lia.
  - lia.
  - lia.
  - rewrite length_insert. lia.
Qed.

Lemma forEachFrom_count (dt : Q) (n k : nat) (w : World) :
  (length (obstacles (fst (forEachFrom n k (callback dt) w)))
   + length (damages (snd (forEachFrom n k (callback dt) w)))
   <= length (obstacles w))%nat.
Proof.
  revert k w. induction n as [|n IH]; intros k w; cbn [forEachFrom].
  - cbn. lia.
  - rewrite fst_seq, snd_seq, damages_app, length_app.
    destruct (obstacles w !! k) as [o|] eqn:Hk.
    + pose proof (callback_count dt o k w Hk).
      pose proof (IH (S k) (fst (callback dt o k w))). lia.
    + pose proof (IH (S k) w). cbn. cbn in H. lia.
Qed.

Lemma damages_of_hits (es : list Effect) :
  Forall isObstacleHit es -> Forall (fun d => d = 20%Z) (damages es).
Proof.
  induction 1 as [|e es He _ IH]; [apply Forall_nil_2|].
  change (e :: es) with ([e] ++ es). rewrite damages_app.
  apply Forall_app. split; [|exact IH].
  destruct He as [-> | ->].
  - apply Forall_nil_2.
  - apply Forall_cons_2; [reflexivity|apply Forall_nil_2].
Qed.

Lemma applyDamages_lower (ds : list Z) (l : Z) :
  Forall (fun d => d = 20%Z) ds ->
  (l - 20 * Z.of_nat (length ds) <= applyDamages ds l)%Z.
Proof.
  intros H. revert l. induction H as [|d ds -> _ IH]; intros l.
  - cbn. lia.
  - cbn [applyDamages fold_left length]. fold (applyDamages ds (0 `max` (l - 20))).
    specialize (IH (0 `max` (l - 20))%Z). lia.
Qed.

(** X11.  In the obstacle loop every hit removes an obstacle and takes at
    most 20 from [life]: the obstacles left plus the hits are at most the
    obstacles found, and [life] drops by at most 20 per obstacle found. *)
Theorem loop_hits_are_paid_by_obstacles (dt : Q) (w : World) :
  let r := updateObstacles dt w in
  let hits := length (damages (snd r)) in
  (length (obstacles (fst r)) + hits <= length (obstacles w))%nat
  /\ (life (gameState w) - 20 * Z.of_nat hits
      <= life (gameState (fst r)))%Z
  /\ (life (gameState w) - 20 * Z.of_nat (length (obstacles w))
      <= life (gameState (fst r)))%Z.
Proof.
  intros r hits.
  assert (Hc : (length (obstacles (fst r)) + hits <= length (obstacles w))%nat)
    by apply forEachFrom_count.
  assert (Hl : (life (gameState w) - 20 * Z.of_nat hits
                <= life (gameState (fst r)))%Z).
  { destruct (updateObstacles_damagedBy dt w) as (Hg & _ & _).
    subst r. rewrite Hg. cbn [life set_life].
    apply applyDamages_lower, damages_of_hits, forEachFrom_effects. }
  split; [exact Hc|]. split; [exact Hl|]. lia.
Qed.

Lemma versionOf_self (dt : Q) (l : list Obstacle.t) (o : Obstacle.t) :
  o ∈ l -> versionOf dt l o.
Proof. intros H. exists o. split; [exact H|left; reflexivity]. Qed.

Lemma visitedUpTo_delete (dt : Q) (l now : list Obstacle.t) (k : nat) :
  visitedUpTo dt l k now -> visitedUpTo dt l k (delete k now).
Proof.
  intros H i o' Hi. rewrite list_lookup_delete in Hi.
  destruct (decide (i < k)%nat) as [Hlt|Hge].
  - destruct (H i o' Hi) as [Hv _]. split; [intros _; apply Hv; lia|lia].
  - destruct (H (S i) o' Hi) as [_ Ho]. split.
    + intros _. apply versionOf_self, Ho. lia.
    + intros _. apply Ho. lia.
Qed.

Lemma callback_visited (dt : Q) (l : list Obstacle.t) (o : Obstacle.t)
    (k : nat) (w : World) :
  obstacles w !! k = Some o ->
  o ∈ l ->
  (forall i o', obstacles w !! i = Some o' ->
     ((i < k)%nat -> versionOf dt l o') /\ ((k <= i)%nat -> o' ∈ l)) ->
  visitedUpTo dt l k (obstacles (fst (callback dt o k w))).
Proof.
  intros Hk Ho H.
  assert (HX : visitedUpTo dt l k (<[k:=rotate dt o]> (obstacles w))).
  { intros i o' Hi. rewrite list_lookup_insert in Hi.
    destruct (decide (k = i /\ (k < length (obstacles w))%nat)) as [[<- _]|Hn].
    - injection Hi as <-. split; [|lia].
      intros _. exists o. split; [exact Ho|right; reflexivity].
    - assert (i <> k).
      { intros ->. apply Hn. split; [reflexivity|].
        apply lookup_lt_is_Some. eauto. }
      destruct (H i o' Hi) as [Hv Hl]. split.
      + intros ?. apply Hv. lia.
      + intros ?. apply Hl. lia. }
  unfold callback, splice1, seq, ifThenElse, assign, call, skip.
  cbn [fst snd].
  repeat match goal with
  | |- context [if ?c then _ else _] => destruct c
  end; cbn [fst snd obstacles set_obstacles upd set_gameState];
  repeat apply visitedUpTo_delete; exact HX.
Qed.

Lemma forEachFrom_versions (dt : Q) (l : list Obstacle.t) (n k : nat)
    (w : World) :
  (forall i o', obstacles w !! i = Some o' ->
     ((i < k)%nat -> versionOf dt l o') /\ ((k <= i)%nat -> o' ∈ l)) ->
  Forall (versionOf dt l) (obstacles (fst (forEachFrom n k (callback dt) w))).
Proof.
  revert k w. induction n as [|n IH]; intros k w H.
  - cbn [forEachFrom skip fst]. apply Forall_lookup. intros i o' Hi.
    destruct (H i o' Hi) as [Hv Hl].
    destruct (decide (i < k)%nat); [apply Hv; assumption|].
    apply versionOf_self, Hl. lia.
  - rewrite fst_forEachFrom_S. apply IH. intros i o' Hi.
    destruct (obstacles w !! k) as [o|] eqn:Hk.
    + assert (Ho : o ∈ l) by (apply (H k o Hk); lia).
      destruct (callback_visited dt l o k w Hk Ho H i o' Hi) as [Hv Hl].
      split; intros ?; [apply Hv|apply Hl]; lia.
    + destruct (H i o' Hi) as [Hv Hl].
      assert (i < k)%nat.
      { apply lookup_ge_None in Hk.
        assert (i < length (obstacles w))%nat
          by (apply lookup_lt_is_Some; eauto).
        lia. }
      split; [intros _; apply Hv; assumption|lia].
Qed.

(** X21.  The loop advances no rotation twice: every obstacle it leaves is
    an obstacle it found, either untouched or rotated by one frame. *)
Theorem loop_rotates_at_most_once (dt : Q) (w : World) :
  Forall (versionOf dt (obstacles w)) (obstacles (fst (updateObstacles dt w))).
Proof.
  apply forEachFrom_versions. intros i o' Hi. split; [lia|].
  intros _. eapply list_elem_of_lookup_2, Hi.
Qed.

(** *** The obstacle field *)

Lemma Forall_sublist {A} (P : A -> Prop) (l1 l2 : list A) :
  l1 `sublist_of` l2 -> Forall P l2 -> Forall P l1.
Proof.
  induction 1 as [|x l1 l2 _ IH|x l1 l2 _ IH]; intros H.
  - exact H.
  - apply Forall_cons_1 in H. destruct H as [Hx H].
    apply Forall_cons_2; [exact Hx|apply IH, H].
  - apply Forall_cons_1 in H. destruct H as [_ H]. apply IH, H.
Qed.

Lemma atLoop_obstacles (dt : Q) (random : nat -> Q) (w : World) :
  let c := c2 (cameraPos w) + speed (gameState w) * (dt / 16.67) in
  obstacles (atLoop dt random w) =
  if Qlt_le_dec (random 0%nat)
       (0.01 * (1 + inject_Z (Math.floor (c * 10)) / 1000))
  then obstacles w ++ [spawned random (set_cameraPos (mkVec3 0 0 c) w)]
  else obstacles w.
Proof.
  cbv zeta. unfold atLoop. rewrite progress_obstacles.
  rewrite kinematics_cameraPos, kinematics_obstacles, kinematics_gameState.
  cbn [speed set_time].
  assert (Hs : speed (gameState (fst (wallCollision (fst (playerMovement dt w)))))
               = speed (gameState w)).
  { rewrite playerMovement_eq. cbn [fst]. case_wall; reflexivity. }
  rewrite Hs. destruct (Qlt_le_dec (random 0%nat) _); reflexivity.
Qed.

Lemma inField_later (c c' : Q) (pl : Q * Q * Q * (Q * Q * Q)) :
  c <= c' -> inField c pl -> inField c' pl.
Proof.
  destruct pl as [[[x y] z] [[sx sy] sz]]. unfold inField.
  intros Hc (Hxy & [Hz0 Hz1] & Hs). split; [exact Hxy|].
  split; [split; lra|exact Hs].
Qed.

Lemma inField_spawned (random : nat -> Q) (w : World) :
  unitInterval random ->
  0 <= c2 (cameraPos w) ->
  inField (c2 (cameraPos w)) (placement (spawned random w)).
Proof.
  intros Hr Hc. unfold inField, placement, spawned.
  cbn [Obstacle.x Obstacle.y Obstacle.z Obstacle.rotationSpeedX
       Obstacle.rotationSpeedY Obstacle.rotationSpeedZ].
  pose proof (Hr 1%nat). pose proof (Hr 2%nat). pose proof (Hr 6%nat).
  pose proof (Hr 7%nat). pose proof (Hr 8%nat).
  repeat split; lra.
Qed.

(** X12.  After events whose frames have non-negative frame times and
    random numbers in [0, 1), every obstacle in the array is within 1.5 of
    the axis sideways, at least 40 from the start and at most 40 ahead of
    the camera, and spins by less than 0.032 per reference frame around
    each axis. *)
Theorem obstacles_stay_in_the_field (events : list Event) :
  plainFrames events ->
  Forall (fun o => inField (c2 (cameraPos (run events))) (placement o))
         (obstacles (run events)).
Proof.
  intros Hev.
  enough (H : Forward (run events)
              /\ Forall (inField (c2 (cameraPos (run events))))
                        (placement <$> obstacles (run events))).
  { destruct H as [_ H]. rewrite Forall_fmap in H. exact H. }
  revert Hev.
  apply (run_induction (fun dt random => 0 <= dt /\ unitInterval random)
           (fun w => Forward w
                     /\ Forall (inField (c2 (cameraPos w)))
                               (placement <$> obstacles w))).
  - split; [split; simpl; try lra; lia|apply Forall_nil_2].
  - intros w k [[? ? ? ?] H]. split; [split; assumption|exact H].
  - intros w [[? ? ? ?] H]. split; [split; assumption|exact H].
  - intros w. split; [split; simpl; try lra; lia|apply Forall_nil_2].
  - intros dt random w [Hdt Hr] _ [Hf H].
    split; [apply Forward_simulate; assumption|].
    destruct Hf as [Ht Hs Hc Hsc].
    pose proof (ratio_nonneg dt Hdt) as Hu.
    set (c := c2 (cameraPos w) + speed (gameState w) * (dt / 16.67)).
    assert (Hcc : c2 (cameraPos w) <= c) by (unfold c; nra).
    rewrite simulate_cameraPos, simulate_obstacles. cbn [c2]. fold c.
    eapply Forall_sublist; [apply forEachFrom_placements|].
    fold (atLoop dt random w).
    pose proof (atLoop_obstacles dt random w) as Ho. cbv zeta in Ho.
    fold c in Ho. rewrite Ho.
    assert (Hold : Forall (inField c) (placement <$> obstacles w)).
    { eapply Forall_impl; [exact H|]. intros pl. apply inField_later, Hcc. }
    destruct (Qlt_le_dec (random 0%nat) _); [|exact Hold].
    rewrite fmap_app. apply Forall_app. split; [exact Hold|].
    apply Forall_cons_2; [|apply Forall_nil_2].
    apply (inField_spawned random (set_cameraPos (mkVec3 0 0 c) w) Hr).
    cbn [c2 cameraPos set_cameraPos]. lra.
Qed.

Lemma obstacles_stay_in_the_field_witness :
  plainFrames stallEvents
  /\ Forall (fun o => inField (c2 (cameraPos (run stallEvents))) (placement o))
            (obstacles (run stallEvents)).
Proof.
  assert (Hq : unitInterval spawning).
  { intros [|[|[|k]]]; split; vm_compute; try discriminate; reflexivity. }
  assert (H : plainFrames stallEvents).
  { apply Forall_cons_2; [exact I|].
    apply Forall_cons_2; [split; [vm_compute; discriminate|exact Hq]|].
    apply Forall_cons_2; [split; [vm_compute; discriminate|exact Hq]|].
    apply Forall_nil_2. }
  split; [exact H|].
  exact (obstacles_stay_in_the_field stallEvents H).
Defined.

(** *** Input *)

(** X13.  A release (key up, mouse up, touch end or cancel) clears its own
    entry of [keys] and no other one, and touches nothing else: thrust held
    through another source stays held. *)
Theorem release_clears_only_its_own_key
    (e : Event) (code : string) (w : World) :
  released e = Some code ->
  let w' := fst (handle e w) in
  truthy (keys w') code = false
  /\ (forall c, c <> code -> truthy (keys w') c = truthy (keys w) c)
  /\ gameState w' = gameState w
  /\ cameraPos w' = cameraPos w
  /\ obstacles w' = obstacles w.
Proof.
  intros He w'. subst w'.
  assert (H : fst (handle e w) = set_keys (<[code:=false]> (keys w)) w).
  { destruct e; try discriminate; injection He as <-; reflexivity. }
  rewrite H. cbn [keys set_keys gameState cameraPos obstacles].
  unfold truthy. split; [|split; [|repeat split]].
  - rewrite lookup_insert_eq. reflexivity.
  - intros c Hc. rewrite lookup_insert_ne by congruence. reflexivity.
Qed.

Lemma release_clears_only_its_own_key_witness :
  let w := run [keydown "Space"; touchstart false] in
  released (keyup "Space") = Some "Space"
  /\ truthy (keys (fst (handle (keyup "Space") w))) "Touch" = true.
Proof.
  cbv zeta.
  assert (H : released (keyup "Space") = Some "Space") by reflexivity.
  split; [exact H|].
  rewrite (proj1 (proj2 (release_clears_only_its_own_key
                           (keyup "Space") "Space"
                           (run [keydown "Space"; touchstart false]) H))
             "Touch") by discriminate.
  vm_compute. reflexivity.
Defined.

(** X14.  Once the game is over, no event but the restart changes the
    game state, the camera or the obstacles, and none calls the page: the
    game stays over until [restartGame]. *)
Theorem game_over_lasts_until_restart (e : Event) (w : World) :
  phase w = GAME_OVER ->
  e <> restartClick ->
  let r := handle e w in
  gameState (fst r) = gameState w
  /\ cameraPos (fst r) = cameraPos w
  /\ obstacles (fst r) = obstacles w
  /\ phase (fst r) = GAME_OVER
  /\ snd r = [].
Proof.
  intros Hp He r. subst r.
  assert (Ht : showTitle (gameState w) = false).
  { unfold phase in Hp. destruct (showTitle (gameState w)); [discriminate|].
    reflexivity. }
  assert (Hs : forall k, startIfTitle (set_keys k w) = (set_keys k w, [])).
  { intros k. unfold startIfTitle, ifThenElse. cbn [gameState set_keys].
    rewrite Ht. reflexivity. }
  assert (Hph : forall k, phase (set_keys k w) = GAME_OVER) by (intros; exact Hp).
  destruct e as [code|code|b| |b| | |dt random| ]; cbn [handle];
    try (repeat split; exact Hp).
  - unfold seq, setKey, assign. cbn [fst snd].
    destruct (String.eqb code "Space"); [rewrite Hs|]; repeat split; exact Hp.
  - destruct b; [repeat split; exact Hp|].
    unfold seq, setKey, assign. cbn [fst snd]. rewrite Hs.
    repeat split; exact Hp.
  - destruct b; [repeat split; exact Hp|].
    unfold seq, setKey, assign. cbn [fst snd]. rewrite Hs.
    repeat split; exact Hp.
  - rewrite updateGame_eq, Hp. repeat split; exact Hp.
  - congruence.
Qed.

Lemma game_over_lasts_until_restart_witness :
  let w := fst (updateGame 16.67 quiet (atUpperWall 10)) in
  phase w = GAME_OVER
  /\ keydown "Space" <> restartClick
  /\ phase (fst (handle (keydown "Space") w)) = GAME_OVER.
Proof.
  cbv zeta.
  assert (H1 : phase (fst (updateGame 16.67 quiet (atUpperWall 10)))
               = GAME_OVER) by (vm_compute; reflexivity).
  assert (H2 : keydown "Space" <> restartClick) by discriminate.
  split; [exact H1|]. split; [exact H2|].
  exact (proj1 (proj2 (proj2 (proj2
           (game_over_lasts_until_restart (keydown "Space") _ H1 H2))))).
Defined.

(** X15.  On the title screen the game starts on exactly three inputs: the
    Space key going down, a mouse button going down or a touch starting
    outside the fullscreen button.  The start only flips the two flags, and
    the input that starts the game already counts as thrust. *)
Theorem title_starts_on_three_inputs (e : Event) (w : World) :
  phase w = TITLE ->
  let w' := fst (handle e w) in
  phase w' = (if startsGame e then RUNNING else TITLE)
  /\ (startsGame e = true ->
      gameState w'
      = set_gameRunning true (set_showTitle false (gameState w))
      /\ cameraPos w' = cameraPos w
      /\ obstacles w' = obstacles w
      /\ thrust w' = true).
Proof.
  intros Hp w'. subst w'.
  assert (Ht : showTitle (gameState w) = true).
  { unfold phase in Hp. destruct (showTitle (gameState w)); [reflexivity|].
    destruct (gameRunning (gameState w)); discriminate. }
  assert (Hs : forall k, fst (startIfTitle (set_keys k w))
                         = fst (startGame (set_keys k w))).
  { intros k. unfold startIfTitle, ifThenElse. cbn [gameState set_keys].
    rewrite Ht. reflexivity. }
  assert (Hk : forall k, phase (set_keys k w) = TITLE) by (intros; exact Hp).
  destruct e as [code|code|b| |b| | |dt random| ]; cbn [handle startsGame].
  - rewrite fst_seq. destruct (String.eqb code "Space") eqn:Hc.
    + apply String.eqb_eq in Hc. subst code.
      unfold setKey, assign. cbn [fst]. rewrite Hs.
      split; [reflexivity|]. intros _. repeat split.
      unfold thrust, truthy. cbn [keys fst startGame]. 
      change (keys (fst (startGame (set_keys (<["Space":=true]> (keys w)) w))))
        with (<["Space":=true]> (keys w)).
      rewrite lookup_insert_eq. reflexivity.
    + split; [exact Hp|discriminate].
  - split; [exact Hp|discriminate].
  - destruct b; cbn [negb]; [split; [exact Hp|discriminate]|].
    rewrite fst_seq. unfold setKey, assign. cbn [fst]. rewrite Hs.
    split; [reflexivity|]. intros _. repeat split.
    unfold thrust, truthy.
    change (keys (fst (startGame (set_keys (<["MouseClick":=true]> (keys w)) w))))
      with (<["MouseClick":=true]> (keys w)).
    rewrite lookup_insert_eq. cbn. apply orb_true_r.
  - split; [exact Hp|discriminate].
  - destruct b; cbn [negb]; [split; [exact Hp|discriminate]|].
    rewrite fst_seq. unfold setKey, assign. cbn [fst]. rewrite Hs.
    split; [reflexivity|]. intros _. repeat split.
    unfold thrust, truthy.
    change (keys (fst (startGame (set_keys (<["Touch":=true]> (keys w)) w))))
      with (<["Touch":=true]> (keys w)).
    rewrite lookup_insert_eq. cbn.
    destruct (default false (_ !! "Space")); reflexivity.
  - split; [exact Hp|discriminate].
  - split; [exact Hp|discriminate].
  - rewrite updateGame_eq, Hp. split; [exact Hp|discriminate].
  - split; [reflexivity|discriminate].
Qed.

Lemma title_starts_on_three_inputs_witness :
  phase initialWorld = TITLE
  /\ phase (fst (handle (touchstart false) initialWorld)) = RUNNING.
Proof.
  assert (H : phase initialWorld = TITLE) by reflexivity.
  split; [exact H|].
  exact (proj1 (title_starts_on_three_inputs (touchstart false) _ H)).
Defined.

(** *** The end of the game, and how far a frame can move the craft *)

Lemma not_showGameOver_hits (es : list Effect) (s : Z) :
  Forall isObstacleHit es -> showGameOver s ∉ es.
Proof.
  intros H Hin. rewrite Forall_forall in H.
  destruct (H _ Hin); discriminate.
Qed.

(** X16.  A frame asks the page for the game-over screen exactly when it
    takes the game from RUNNING to GAME_OVER, and then with the score of the
    state it leaves. *)
Theorem game_over_screen_iff_the_game_ends
    (dt : Q) (random : nat -> Q) (w : World) (s : Z) :
  let r := updateGame dt random w in
  showGameOver s ∈ snd r
  <-> phase w = RUNNING /\ phase (fst r) = GAME_OVER
      /\ s = score (gameState (fst r)).
Proof.
  intros r. subst r. rewrite updateGame_eq.
  destruct (phase w) eqn:Hp.
  - split; [|intros (? & _); discriminate].
    intros H. apply list_elem_of_singleton in H. discriminate.
  - assert (Ht : showTitle (gameState w) = false
                 /\ gameRunning (gameState w) = true).
    { unfold phase in Hp. destruct (showTitle (gameState w)); [discriminate|].
      destruct (gameRunning (gameState w)); [split; reflexivity|discriminate]. }
    destruct Ht as [Ht Hr].
    assert (Hph : phase (fst (simulate dt random w)) = GAME_OVER
                  <-> (lifeAfter dt random w <=? 0)%Z = true).
    { unfold phase. rewrite simulate_gameState. cbn [showTitle gameRunning].
      rewrite Ht, Hr. destruct (lifeAfter dt random w <=? 0)%Z;
        split; intros; try reflexivity; discriminate. }
    pose proof (score_before_checkGameOver dt random w) as Hsc.
    cbv zeta in Hsc.
    assert (Hlo : life (gameState (fst (updateObstacles dt
                     (fst (progress dt random (fst (kinematics dt w)))))))
                  = lifeAfter dt random w).
    { destruct (updateObstacles_damagedBy dt
                  (fst (progress dt random (fst (kinematics dt w)))))
        as (Hg & _ & _).
      rewrite Hg. cbn [life set_life]. rewrite progress_gameState.
      cbn [life set_speed set_score]. rewrite kinematics_gameState.
      reflexivity. }
    rewrite snd_simulate. cbv zeta.
    rewrite !elem_of_app, checkGameOver_eq, Hlo, Hph, Hsc.
    set (s' := score (gameState (fst (simulate dt random w)))).
    set (wall := snd (wallCollision (fst (playerMovement dt w)))).
    set (hits := snd (updateObstacles dt
                   (fst (progress dt random (fst (kinematics dt w)))))).
    set (ui := updateUI _ _).
    assert (Hwall : showGameOver s ∉ wall).
    { unfold wall.
      destruct (afterWall_cases dt w) as [(_ & He & _)|(_ & He & _)];
        rewrite He; intros H.
      - apply elem_of_cons in H. destruct H as [H|H]; [discriminate|].
        apply list_elem_of_singleton in H. discriminate.
      - apply elem_of_nil in H. exact H. }
    assert (Hhits : showGameOver s ∉ hits)
      by apply not_showGameOver_hits, forEachFrom_effects.
    assert (Hui : showGameOver s ∉ [ui]).
    { intros H. apply list_elem_of_singleton in H. discriminate. }
    clearbody s' wall hits ui. clear Hlo Hsc.
    destruct (lifeAfter dt random w <=? 0)%Z.
    + split.
      * intros [H|[H|[H|H]]]; try contradiction.
        apply list_elem_of_singleton in H. injection H as Hs.
        split; [reflexivity|]. split; [reflexivity|exact Hs].
      * intros (_ & _ & ->). right. right. left.
        apply list_elem_of_singleton. reflexivity.
    + split.
      * intros [H|[H|[H|H]]]; try contradiction.
        apply elem_of_nil in H. destruct H.
      * intros (_ & Hl & _). discriminate.
  - split; [|intros (? & _); discriminate].
    intros H. apply elem_of_nil in H. destruct H.
Qed.




(** *** The high score *)

Section HighScore.

Variable parseInt : string -> option Z.
Variable toString : Z -> string.

Lemma highScoreText_written (s : string) (storage : gmap string string) :
  s <> "" ->
  highScoreText (<["highScore" := s]> storage) = s.
Proof.
  intros Hs. unfold highScoreText. rewrite lookup_insert_eq.
  destruct (String.eqb s "") eqn:E; [|reflexivity].
  apply String.eqb_eq in E. contradiction.
Qed.

Lemma storeHighScore_max
    (score highScore : Z) (storage : gmap string string) :
  readHighScore parseInt storage = Some highScore ->
  parseInt (toString score) = Some score ->
  toString score <> "" ->
  readHighScore parseInt (storeHighScore parseInt toString score storage)
  = Some (Z.max highScore score).
Proof.
  intros Hh Hrt Hne. unfold storeHighScore. rewrite Hh.
  destruct (Z.ltb_spec highScore score).
  - unfold readHighScore. rewrite highScoreText_written by exact Hne.
    rewrite Hrt. f_equal. lia.
  - rewrite Hh. f_equal. lia.
Qed.

(** X18.  When the stored high score reads as a number, [showGameOver]
    leaves the larger of it and the final score in the storage, which is
    also the final high score it shows; the stored value never gets lower.
    (The final score must survive [toString] and [parseInt], as integers
    do.) *)
Theorem game_over_keeps_the_best_score
    (score highScore : Z) (storage : gmap string string) :
  readHighScore parseInt storage = Some highScore ->
  parseInt (toString score) = Some score ->
  toString score <> "" ->
  readHighScore parseInt (storeHighScore parseInt toString score storage)
  = Some (Z.max highScore score)
  /\ finalHighScore parseInt score storage = Some (Z.max highScore score).
Proof.
  intros Hh Hrt Hne. split; [apply storeHighScore_max; assumption|].
  unfold finalHighScore. rewrite Hh. reflexivity.
Qed.

Lemma serve_snoc (es : list Effect) (e : Effect)
    (storage : gmap string string) :
  serve parseInt toString (es ++ [e]) storage
  = match e with
    | showGameOver s =>
        storeHighScore parseInt toString s (serve parseInt toString es storage)
    | _ => serve parseInt toString es storage
    end.
Proof. unfold serve. rewrite fold_left_app. destruct e; reflexivity. Qed.

(** X19.  A stored high score that does not read as a number is never
    replaced: whatever games end in a session, the storage stays as it was
    and no number is shown as the final high score. *)
Theorem unreadable_high_score_is_kept
    (es : list Effect) (score : Z) (storage : gmap string string) :
  readHighScore parseInt storage = None ->
  serve parseInt toString es storage = storage
  /\ finalHighScore parseInt score storage = None.
Proof.
  intros H. split.
  - induction es as [|e es IH] using rev_ind; [reflexivity|].
    rewrite serve_snoc, IH. destruct e; try reflexivity.
    unfold storeHighScore. rewrite H. reflexivity.
  - unfold finalHighScore. rewrite H. reflexivity.
Qed.

(** X20.  Over a whole session, starting from a stored high score that
    reads as a number: the stored high score still reads as a number, is at
    least what it was, and is at least the final score of every game that
    ended in the session. *)
Theorem high_score_covers_the_session
    (es : list Effect) (highScore : Z) (storage : gmap string string) :
  readHighScore parseInt storage = Some highScore ->
  (forall s, showGameOver s ∈ es ->
             parseInt (toString s) = Some s /\ toString s <> "") ->
  exists best,
    readHighScore parseInt (serve parseInt toString es storage) = Some best
    /\ (highScore <= best)%Z
    /\ (forall s, showGameOver s ∈ es -> (s <= best)%Z).
Proof.
  intros Hh. induction es as [|e es IH] using rev_ind; intros Hrt.
  - exists highScore. split; [exact Hh|]. split; [lia|].
    intros s H. apply elem_of_nil in H. destruct H.
  - destruct IH as (best & Hb & Hle & Hall).
    { intros s Hs. apply Hrt. apply elem_of_app. left. exact Hs. }
    rewrite serve_snoc.
    assert (Hother : forall s, showGameOver s ∈ es ++ [e] ->
                       showGameOver s ∈ es \/ e = showGameOver s).
    { intros s Hs. apply elem_of_app in Hs. destruct Hs as [Hs|Hs];
        [left; exact Hs|right].
      apply list_elem_of_singleton in Hs. congruence. }
    destruct e as [| | | |s0|];
      try (exists best; split; [exact Hb|]; split; [exact Hle|];
           intros s Hs; destruct (Hother s Hs) as [H|H];
           [apply Hall, H|discriminate]).
    destruct (Hrt s0) as [Hrt0 Hne0].
    { apply elem_of_app. right. apply list_elem_of_singleton. reflexivity. }
    pose proof (storeHighScore_max s0 best _ Hb Hrt0 Hne0) as Hn.
    exists (Z.max best s0). split; [exact Hn|]. split; [lia|].
    intros s Hs. destruct (Hother s Hs) as [H|H].
    + specialize (Hall s H). lia.
    + injection H as <-. lia.
Qed.

End HighScore.

Lemma game_over_keeps_the_best_score_witness :
  let storage : gmap string string := {["highScore" := "120"]} in
  readHighScore decimalToZ storage = Some 120%Z
  /\ decimalToZ (decimalOfZ 451) = Some 451%Z
  /\ decimalOfZ 451 <> ""
  /\ readHighScore decimalToZ (storeHighScore decimalToZ decimalOfZ 451 storage)
     = Some (Z.max 120 451).
Proof.
  cbv zeta.
  assert (H1 : readHighScore decimalToZ
                 ({["highScore" := "120"]} : gmap string string) = Some 120%Z)
    by (vm_compute; reflexivity).
  assert (H2 : decimalToZ (decimalOfZ 451) = Some 451%Z)
    by (vm_compute; reflexivity).
  assert (H3 : decimalOfZ 451 <> "") by (vm_compute; discriminate).
  split; [exact H1|]. split; [exact H2|]. split; [exact H3|].
  exact (proj1 (game_over_keeps_the_best_score decimalToZ decimalOfZ
                  451 120 _ H1 H2 H3)).
Defined.

Lemma unreadable_high_score_is_kept_witness :
  let storage : gmap string string := {["highScore" := "best"]} in
  readHighScore decimalToZ storage = None
  /\ serve decimalToZ decimalOfZ [showGameOver 451; updateUI 0 451] storage
     = storage.
Proof.
  cbv zeta.
  assert (H : readHighScore decimalToZ
                ({["highScore" := "best"]} : gmap string string) = None)
    by (vm_compute; reflexivity).
  split; [exact H|].
  exact (proj1 (unreadable_high_score_is_kept decimalToZ decimalOfZ
                  [showGameOver 451; updateUI 0 451] 0 _ H)).
Defined.

Lemma high_score_covers_the_session_witness :
  let es := snd (updateGame 16.67 quiet (atUpperWall 10)) in
  let storage : gmap string string := ∅ in
  readHighScore decimalToZ storage = Some 0%Z
  /\ (forall s, showGameOver s ∈ es ->
        decimalToZ (decimalOfZ s) = Some s /\ decimalOfZ s <> "")
  /\ exists best,
       readHighScore decimalToZ (serve decimalToZ decimalOfZ es storage)
       = Some best
       /\ (0 <= best)%Z
       /\ (forall s, showGameOver s ∈ es -> (s <= best)%Z).
Proof.
  cbv zeta.
  assert (H1 : readHighScore decimalToZ (∅ : gmap string string) = Some 0%Z)
    by (vm_compute; reflexivity).
  assert (H2 : forall s,
             showGameOver s ∈ snd (updateGame 16.67 quiet (atUpperWall 10)) ->
             decimalToZ (decimalOfZ s) = Some s /\ decimalOfZ s <> "").
  { intros s Hs.
    assert (E : snd (updateGame 16.67 quiet (atUpperWall 10))
                = [showDamageFlash; playCollisionSound "wall";
                   showGameOver 4; updateUI 0 4])
      by (vm_compute; reflexivity).
    rewrite E in Hs.
    clear H1 E.
    apply elem_of_cons in Hs. destruct Hs as [Hs|Hs]; [discriminate Hs|].
    apply elem_of_cons in Hs. destruct Hs as [Hs|Hs]; [discriminate Hs|].
    apply elem_of_cons in Hs. destruct Hs as [Hs|Hs].
    - injection Hs as ->.
      split; [vm_compute; reflexivity|vm_compute; discriminate].
    - apply list_elem_of_singleton in Hs. discriminate Hs. }
  split; [exact H1|]. split; [exact H2|].
  exact (high_score_covers_the_session decimalToZ decimalOfZ _ 0 ∅ H1 H2).
Defined.

(** *** Splitting a frame *)



